(** * A3C data-parallel learner (ch11/01_a3c_data.py)

    A shallow embedding of the actor loop [data_func], of the batch
    bootstrapper [unpack_batch] and of the learner loop of
    [ch11/01_a3c_data.py], with the properties of the design document
    stated and proved over it.

    Numbers.  The program computes on floating point numbers.  They are
    modelled by an abstract scalar type with the arithmetic operations the
    program uses (class [Scalar]).  The one conversion the program asks
    for, [dtype=np.float32] on the rewards of a batch, is an operation of
    the class; the rounding inside an arithmetic operation is not
    modelled.  The rationals are an instance, used to run the model on
    concrete inputs: there the conversion rounds to the nearest float32.

    Arrays.  numpy arrays are mutable objects: they live in a heap,
    addressed by locations.  Experience tuples are immutable named tuples,
    passed by value; their [state] and [last_state] fields refer to arrays
    of the heap.

    Tensors.  torch tensors of dimension 0, 1 and 2 with torch's
    broadcasting of binary operations; the autograd graph the program
    builds is a term ([node]), evaluated by [eval].

    External code.  The network, the optimizer, torch's [softmax],
    [log_softmax] and [mse_loss], ptan's experience source and the reward
    tracker are not part of the file: they are parameters of the model. *)

From Stdlib Require Import QArith Qabs Qround.
From stdpp Require Import base option list strings gmap.

Set Default Proof Using "Type".

(** ** Scalars *)

Class Scalar (V : Type) := {
  lit : Q → V;            (* a float literal *)
  fadd : V → V → V;
  fsub : V → V → V;
  fmul : V → V → V;
  fdiv : V → V → V;
  fneg : V → V;
  to_float32 : V → V      (* the conversion [dtype=np.float32] *)
}.

(** The conversion of a rational to float32: the nearest number
    [n * 2 ^ e] with [|n| < 2 ^ 24] and [-149 ≤ e], ties to the even [n]
    (IEEE 754 binary32, round to nearest even, subnormal numbers
    included).  The range of float32 is not bounded here: a number beyond
    [2 ^ 128], that numpy converts to an infinity, is rounded like the
    others. *)
Definition floor_log2 (m : Q) : Z :=
  let e0 := (Z.log2 (Qnum m) - Z.log2 (Zpos (Qden m)))%Z in
  if Qle_bool (Qpower 2 e0) m then e0 else (e0 - 1)%Z.

Definition round_half_even (q : Q) : Z :=
  let f := Qfloor q in
  match (q - inject_Z f ?= 1 # 2)%Q with
  | Lt => f
  | Gt => (f + 1)%Z
  | Eq => if Z.even f then f else (f + 1)%Z
  end.

Definition to_float32_q (q : Q) : Q :=
  match Qnum q with
  | Z0 => 0%Q
  | _ =>
      let m := Qabs q in
      let e := Z.max (floor_log2 m - 23) (-149) in
      let r := (inject_Z (round_half_even (m / Qpower 2 e)) * Qpower 2 e)%Q in
      Qred (if Qle_bool 0 q then r else - r)
  end.

#[global] Instance Q_Scalar : Scalar Q := {|
  lit q := q;
  fadd := Qplus;
  fsub := Qminus;
  fmul := Qmult;
  fdiv := Qdiv;
  fneg := Qopp;
  to_float32 := to_float32_q
|}.

Abbreviation loc := positive.

(** ** Data *)

(** Tensors of dimension 0, 1 and 2. *)
Inductive tensor (V : Type) :=
  | T0 (x : V)                      (* a scalar *)
  | T1 (v : list V)                 (* shape (n,) *)
  | T2 (m : list (list V)).         (* shape (n, k): a list of rows *)

Arguments T0 {V} x.
Arguments T1 {V} v.
Arguments T2 {V} m.

(** The autograd graph: [Logits] and [Value] are the two outputs of the
    forward pass [net(states_v)]. *)
Inductive node (V : Type) :=
  | Leaf (t : tensor V)               (* a tensor that requires no gradient *)
  | Logits                          (* net(states_v)[0] *)
  | Value                           (* net(states_v)[1] *)
  | Detach (n : node V)               (* n.detach() *)
  | LogSoftmax (n : node V)
  | Softmax (n : node V)
  | Add (a b : node V)
  | Sub (a b : node V)
  | Mul (a b : node V)
  | Neg (a : node V)
  | Mean (a : node V)                 (* a.mean() *)
  | SumDim1 (a : node V)              (* a.sum(dim=1) *)
  | Index (a : node V) (rows cols : list nat)
  | MseLoss (a b : node V).

Arguments Leaf {V} t.
Arguments Logits {V}.
Arguments Value {V}.
Arguments Detach {V} n.
Arguments LogSoftmax {V} n.
Arguments Softmax {V} n.
Arguments Add {V} a b.
Arguments Sub {V} a b.
Arguments Mul {V} a b.
Arguments Neg {V} a.
Arguments Mean {V} a.
Arguments SumDim1 {V} a.
Arguments Index {V} a rows cols.
Arguments MseLoss {V} a b.

(** ptan's [ExperienceFirstLast]; [action] is the index of the action the
    agent chose. *)
Record Experience (V : Type) := {
  state : loc;
  action : nat;
  reward : V;
  last_state : option loc
}.

(** What travels on [train_queue]: [None], a [TotalReward] or an
    experience tuple. *)
Inductive train_entry (V : Type) :=
  | TEnd
  | TotalReward (r : V)
  | TExp (exp : Experience V).

Arguments state {V} e.
Arguments action {V} e.
Arguments reward {V} e.
Arguments last_state {V} e.
Arguments TEnd {V}.
Arguments TotalReward {V} r.
Arguments TExp {V} exp.

(** What the learner process does, in order. *)
Inductive event (V : Type) :=
  | EvUnpackBatch (batch : list (Experience V))      (* unpack_batch is entered *)
  | EvNet (x : list (list V))                    (* net(x) *)
  | EvZeroGrad                                   (* optimizer.zero_grad() *)
  | EvBackward (loss : node V) (retain_graph : bool)
  | EvReadGrads                                  (* the p.grad are read *)
  | EvClipGradNorm (max_norm : V)
  | EvOptimizerStep                              (* optimizer.step() *)
  | EvTrack (name : string) (data : tensor V) (step_idx : nat).

Arguments EvUnpackBatch {V} batch.
Arguments EvNet {V} x.
Arguments EvZeroGrad {V}.
Arguments EvBackward {V} loss retain_graph.
Arguments EvReadGrads {V}.
Arguments EvClipGradNorm {V} max_norm.
Arguments EvOptimizerStep {V}.
Arguments EvTrack {V} name data step_idx.

(** ** External code *)

(** torch: [F.softmax] and [F.log_softmax] on one row, [F.mse_loss]; the
    network [net(x)] under given parameters, which returns the policy
    logits, one row per observation, and the output of the value head, a
    column: one row of one number per observation ([unpack_batch] reads it
    with [[:, 0]]); the gradient of a loss with respect to the [i]-th
    parameter, [None] when the loss does not reach it;
    [nn_utils.clip_grad_norm] on the gradients; one step of Adam on its
    state; numpy's [sqrt], [max(abs(.))] and [var], used for the gradient
    statistics. *)
Class Torch (V : Type) := {
  OptState : Type;
  F_softmax : list V → list V;
  F_log_softmax : list V → list V;
  F_mse_loss : tensor V → tensor V → option V;
  net : list (list V) → list (list V) → list (list V) * list (list V);
  autograd : list (list V) → list (list V) → node V → nat → option (list V);
  clip_grad_norm : list (option (list V)) → V → list (option (list V));
  adam_step :
    OptState → list (list V) → list (option (list V)) →
    list (list V) * OptState;
  np_sqrt : V → V;
  np_max_abs : list V → V;
  np_var : list V → V
}.

(** ptan and [lib.common]: [tracker.reward(reward, step_idx)] of
    [RewardTracker] tells whether to stop; [ExperienceSourceFirstLast] is a
    state machine that yields the next experience tuple ([None] when the
    iteration is over) and whose [pop_total_rewards] hands over the episode
    totals completed since the previous call. *)
Class Ptan (V : Type) := {
  Tracker : Type;
  tracker_reward : Tracker → V → nat → bool * Tracker;
  Source : Type;
  source_next : Source → option (Experience V * Source);
  pop_total_rewards : Source → list V * Source
}.

Section Model.
Context {V : Type} `{Scalar V} `{Torch V} `{Ptan V}.

(** [x ** n] for a non-negative integer exponent. *)
Fixpoint fpow (x : V) (n : nat) : V :=
  match n with
  | O => lit 1
  | S n' => fmul x (fpow x n')
  end.

Definition of_nat (n : nat) : V := lit (inject_Z (Z.of_nat n)).

(** Module constants. *)
Definition GAMMA : V := lit (99 # 100).
Definition LEARNING_RATE : V := lit (1 # 1000).
Definition ENTROPY_BETA : V := lit (1 # 100).
Definition BATCH_SIZE : nat := 128.
Definition REWARD_STEPS : nat := 4.
Definition CLIP_GRAD : V := lit (1 # 10).
Definition PROCESSES_COUNT : nat := 4.
Definition NUM_ENVS : nat := 12.

(** ** Tensors and broadcasting *)

(** Broadcasting along one dimension: equal lengths combine element by
    element, a length of one is stretched, anything else raises. *)
Definition bcast_row {A B C} (f : A → B → C) (a : list A) (b : list B)
  : option (list C) :=
  if decide (length a = length b) then Some (zip_with f a b)
  else match a, b with
       | [x], _ => Some (map (f x) b)
       | _, [y] => Some (map (λ t, f t y) a)
       | _, _ => None
       end.

Definition bcast_mat (f : V → V → V) (a b : list (list V))
  : option (list (list V)) :=
  rows ← bcast_row (bcast_row f) a b;
  mapM id rows.

(** A binary operation on tensors; a tensor of lower dimension is aligned
    on the last dimension: a vector against a matrix is one row. *)
Definition tensor_binop (f : V → V → V) (a b : tensor V) : option (tensor V) :=
  match a, b with
  | T0 x, T0 y => Some (T0 (f x y))
  | T0 x, T1 v => Some (T1 (map (f x) v))
  | T1 v, T0 y => Some (T1 (map (λ t, f t y) v))
  | T0 x, T2 m => Some (T2 (map (map (f x)) m))
  | T2 m, T0 y => Some (T2 (map (map (λ t, f t y)) m))
  | T1 v, T1 u => T1 <$> bcast_row f v u
  | T1 v, T2 m => T2 <$> bcast_mat f [v] m
  | T2 m, T1 v => T2 <$> bcast_mat f m [v]
  | T2 m, T2 n => T2 <$> bcast_mat f m n
  end.

Definition fsum (l : list V) : V := foldr fadd (lit 0) l.

(** [np.mean] and [.mean()]: the sum over the number of elements. *)
Definition fmean (l : list V) : V := fdiv (fsum l) (of_nat (length l)).

(** [t[rows, cols]]: the element at [(rows[k], cols[k])] for each [k]. *)
Definition index_pairs (m : list (list V)) (rows cols : list nat)
  : option (list V) :=
  ps ← bcast_row pair rows cols;
  mapM (λ p : nat * nat, m !! p.1 ≫= (.!! p.2)) ps.

(** ** The autograd graph *)

Definition rowwise (f : list V → list V) (t : tensor V) : option (tensor V) :=
  match t with
  | T0 _ => None
  | T1 v => Some (T1 (f v))
  | T2 m => Some (T2 (map f m))
  end.

(** The value of a node, given the two outputs of the forward pass. *)
Fixpoint eval (logits_v value_v : tensor V) (n : node V) : option (tensor V) :=
  match n with
  | Leaf t => Some t
  | Logits => Some logits_v
  | Value => Some value_v
  | Detach a => eval logits_v value_v a
  | LogSoftmax a => eval logits_v value_v a ≫= rowwise F_log_softmax
  | Softmax a => eval logits_v value_v a ≫= rowwise F_softmax
  | Add a b =>
      x ← eval logits_v value_v a; y ← eval logits_v value_v b;
      tensor_binop fadd x y
  | Sub a b =>
      x ← eval logits_v value_v a; y ← eval logits_v value_v b;
      tensor_binop fsub x y
  | Mul a b =>
      x ← eval logits_v value_v a; y ← eval logits_v value_v b;
      tensor_binop fmul x y
  | Neg a =>
      x ← eval logits_v value_v a;
      Some match x with
           | T0 x => T0 (fneg x)
           | T1 v => T1 (map fneg v)
           | T2 m => T2 (map (map fneg) m)
           end
  | Mean a =>
      x ← eval logits_v value_v a;
      Some match x with
           | T0 x => T0 x
           | T1 v => T0 (fmean v)
           | T2 m => T0 (fmean (concat m))
           end
  | SumDim1 a =>
      x ← eval logits_v value_v a;
      match x with
      | T2 m => Some (T1 (map fsum m))
      | _ => None
      end
  | Index a rows cols =>
      x ← eval logits_v value_v a;
      match x with
      | T2 m => T1 <$> index_pairs m rows cols
      | _ => None
      end
  | MseLoss a b =>
      x ← eval logits_v value_v a; y ← eval logits_v value_v b;
      T0 <$> F_mse_loss x y
  end.

(** Whether a gradient propagated back from [n] reaches the output of the
    value head (resp. the logits): [detach] cuts the graph. *)
Fixpoint flows_to_value (n : node V) : bool :=
  match n with
  | Leaf _ | Logits | Detach _ => false
  | Value => true
  | LogSoftmax a | Softmax a | Neg a | Mean a | SumDim1 a | Index a _ _ =>
      flows_to_value a
  | Add a b | Sub a b | Mul a b | MseLoss a b =>
      flows_to_value a || flows_to_value b
  end.

Fixpoint flows_to_logits (n : node V) : bool :=
  match n with
  | Leaf _ | Value | Detach _ => false
  | Logits => true
  | LogSoftmax a | Softmax a | Neg a | Mean a | SumDim1 a | Index a _ _ =>
      flows_to_logits a
  | Add a b | Sub a b | Mul a b | MseLoss a b =>
      flows_to_logits a || flows_to_logits b
  end.

(** ** The world of the learner process *)

Record world := World {
  heap : gmap loc (list V);             (* numpy arrays *)
  params : list (list V);               (* the data of net.parameters() *)
  grads : list (option (list V));       (* p.grad of each parameter *)
  opt_state : OptState;
  graph_live : bool;                    (* the graph of the last forward pass *)
  trace : list (event V)
}.

(** A computation may raise; the world it leaves is kept. *)
Definition M (A : Type) : Type := world → option A * world.

#[global] Instance M_ret : MRet M := λ A a w, (Some a, w).
#[global] Instance M_bind : MBind M := λ A B f m w,
  match m w with
  | (Some a, w') => f a w'
  | (None, w') => (None, w')
  end.

Definition raise {A} : M A := λ w, (None, w).

Definition lift_opt {A} (o : option A) : M A :=
  match o with
  | Some a => mret a
  | None => raise
  end.

Definition set_heap (h : gmap loc (list V)) (w : world) : world :=
  World h (params w) (grads w) (opt_state w) (graph_live w) (trace w).

Definition log (e : event V) : M unit := λ w,
  (Some tt, World (heap w) (params w) (grads w) (opt_state w) (graph_live w)
              (trace w ++ [e])).

(** [np.array(data)]: a freshly allocated array. *)
Definition ndarray_new (data : list V) : M loc := λ w,
  let l := fresh (dom (heap w)) in
  (Some l, set_heap (<[l := data]> (heap w)) w).

Definition ndarray_get (l : loc) : M (list V) := λ w,
  match heap w !! l with
  | Some data => (Some data, w)
  | None => (None, w)
  end.

Definition ndarray_set (l : loc) (data : list V) : M unit := λ w,
  match heap w !! l with
  | Some _ => (Some tt, set_heap (<[l := data]> (heap w)) w)
  | None => (None, w)
  end.

(** The in-place addition of numpy: the right operand has the length of the
    left one, or length one (broadcast); anything else raises. *)
Definition iadd_bcast (tmp b : list V) : option (list V) :=
  if decide (length b = length tmp) then Some (zip_with fadd tmp b)
  else match b with
       | [x] => Some (map (λ t, fadd t x) tmp)
       | _ => None
       end.

(** [a[idxs] = vals], element by element; an index out of range raises. *)
Fixpoint scatter (a : list V) (idxs : list nat) (vals : list V)
  : option (list V) :=
  match idxs, vals with
  | i :: idxs', v :: vals' =>
      if decide (i < length a) then scatter (<[i := v]> a) idxs' vals'
      else None
  | _, _ => Some a
  end.

(** [a[idxs] += b] on the array at [l]: gather, add, write back. *)
Definition ndarray_iadd_at (l : loc) (idxs : list nat) (b : list V) : M unit :=
  a ← ndarray_get l;
  tmp ← lift_opt (mapM (λ i, a !! i) idxs);
  tmp' ← lift_opt (iadd_bcast tmp b);
  a' ← lift_opt (scatter a idxs tmp');
  ndarray_set l a'.

(** ** The network, autograd and the optimizer *)

(** A forward pass; [volatile] inputs build no graph. *)
Definition net_forward (volatile : bool) (x : list (list V))
  : M (list (list V) * list (list V)) := λ w,
  (Some (net (params w) x),
   World (heap w) (params w) (grads w) (opt_state w)
     (if volatile then graph_live w else true) (trace w ++ [EvNet x])).

(** [optimizer.zero_grad()]: the gradients that exist are zeroed. *)
Definition zero_grad (g : list (option (list V))) : list (option (list V)) :=
  map (fmap (map (λ _, lit 0))) g.

Definition optimizer_zero_grad : M unit := λ w,
  (Some tt, World (heap w) (params w) (zero_grad (grads w)) (opt_state w)
              (graph_live w) (trace w ++ [EvZeroGrad])).

(** Gradients accumulate onto the ones already there. *)
Definition grad_accumulate (old new : option (list V)) : option (list V) :=
  match old, new with
  | _, None => old
  | None, Some g => Some g
  | Some o, Some g => Some (zip_with fadd o g)
  end.

(** [loss.backward(retain_graph)] for a loss built on the forward pass over
    [x]; going twice through a graph that was not retained raises.  torch
    also raises on a loss that requires no gradient; the losses of the
    program are built on the outputs of a network whose parameters the
    optimizer has accepted, so that case is left out. *)
Definition backward (x : list (list V)) (loss : node V) (retain_graph : bool)
  : M unit := λ w,
  if graph_live w then
    (Some tt,
     World (heap w) (params w)
       (imap (λ i old, grad_accumulate old (autograd (params w) x loss i))
          (grads w))
       (opt_state w) retain_graph (trace w ++ [EvBackward loss retain_graph]))
  else (None, w).

(** [np.concatenate([p.grad... for p in net.parameters() if p.grad is not
    None])]; concatenating no array at all raises. *)
Definition read_grads : M (list V) := λ w,
  let w' := World (heap w) (params w) (grads w) (opt_state w) (graph_live w)
              (trace w ++ [EvReadGrads]) in
  match omap id (grads w) with
  | [] => (None, w')
  | gs => (Some (concat gs), w')
  end.

Definition clip_grad (max_norm : V) : M unit := λ w,
  (Some tt, World (heap w) (params w) (clip_grad_norm (grads w) max_norm)
              (opt_state w) (graph_live w)
              (trace w ++ [EvClipGradNorm max_norm])).

Definition optimizer_step : M unit := λ w,
  let r := adam_step (opt_state w) (params w) (grads w) in
  (Some tt, World (heap w) r.1 (grads w) r.2 (graph_live w)
              (trace w ++ [EvOptimizerStep])).

Definition track (name : string) (data : tensor V) (step_idx : nat) : M unit :=
  log (EvTrack name data step_idx).

(** ** [unpack_batch] *)

Record unpack_acc := {
  acc_states : list loc;
  acc_actions : list nat;
  acc_rewards : list V;
  acc_not_done_idx : list nat;
  acc_last_states : list loc
}.

Definition unpack_acc_init : unpack_acc := {|
  acc_states := []; acc_actions := []; acc_rewards := [];
  acc_not_done_idx := []; acc_last_states := []
|}.

(** The body of [for idx, exp in enumerate(batch)]. *)
Definition unpack_visit (idx : nat) (exp : Experience V) (a : unpack_acc)
  : unpack_acc := {|
  acc_states := acc_states a ++ [state exp];
  acc_actions := acc_actions a ++ [action exp];
  acc_rewards := acc_rewards a ++ [reward exp];
  acc_not_done_idx :=
    match last_state exp with
    | Some _ => acc_not_done_idx a ++ [idx]
    | None => acc_not_done_idx a
    end;
  acc_last_states :=
    match last_state exp with
    | Some s => acc_last_states a ++ [s]
    | None => acc_last_states a
    end
|}.

Fixpoint unpack_loop (idx : nat) (batch : list (Experience V)) (a : unpack_acc)
  : unpack_acc :=
  match batch with
  | [] => a
  | exp :: rest => unpack_loop (S idx) rest (unpack_visit idx exp a)
  end.

(** [unpack_batch(batch, net)]: the states, the actions and the reference
    values.  The [cuda] flag only moves tensors to the device and is left
    out. *)
Definition unpack_batch (batch : list (Experience V))
  : M (list (list V) * list nat * list V) :=
  _ ← log (EvUnpackBatch batch);
  let a := unpack_loop 0 batch unpack_acc_init in
  states_v ← mapM ndarray_get (acc_states a);
  let actions_t := acc_actions a in
  rewards_np ← ndarray_new (map to_float32 (acc_rewards a));
  _ ← match acc_not_done_idx a with
      | [] => mret tt
      | _ :: _ =>
          last_states_v ← mapM ndarray_get (acc_last_states a);
          out ← net_forward true last_states_v;
          last_vals_np ← lift_opt (mapM (λ row : list V, row !! 0%nat) out.2);
          ndarray_iadd_at rewards_np (acc_not_done_idx a)
            (map (fmul (fpow GAMMA REWARD_STEPS)) last_vals_np)
      end;
  ref_vals_v ← ndarray_get rewards_np;
  mret (states_v, actions_t, ref_vals_v).

(** ** The update step *)

(** The tensors of the update step, as nodes over the forward pass
    [logits_v, value_v = net(states_v)]. *)
Definition loss_value_v (vals_ref_v : list V) : node V :=
  MseLoss Value (Leaf (T1 vals_ref_v)).

Definition log_prob_v : node V := LogSoftmax Logits.

Definition adv_v (vals_ref_v : list V) : node V :=
  Sub (Leaf (T1 vals_ref_v)) (Detach Value).

Definition log_prob_actions_v (actions_t : list nat) (vals_ref_v : list V)
  : node V :=
  Mul (adv_v vals_ref_v) (Index log_prob_v (seq 0 BATCH_SIZE) actions_t).

Definition loss_policy_v (actions_t : list nat) (vals_ref_v : list V) : node V :=
  Neg (Mean (log_prob_actions_v actions_t vals_ref_v)).

Definition prob_v : node V := Softmax Logits.

Definition entropy_loss_v : node V :=
  Mul (Leaf (T0 ENTROPY_BETA)) (Mean (SumDim1 (Mul prob_v log_prob_v))).

(** The loss of the second backward pass, and the full loss
    ([loss_v += loss_policy_v]). *)
Definition loss_v (vals_ref_v : list V) : node V :=
  Add entropy_loss_v (loss_value_v vals_ref_v).

Definition loss_total_v (actions_t : list nat) (vals_ref_v : list V) : node V :=
  Add (loss_v vals_ref_v) (loss_policy_v actions_t vals_ref_v).

Definition update_step (states_v : list (list V)) (actions_t : list nat)
    (vals_ref_v : list V) (step_idx : nat) : M unit :=
  _ ← optimizer_zero_grad;
  out ← net_forward false states_v;
  let compute (n : node V) : M (tensor V) :=
    lift_opt (eval (T2 out.1) (T2 out.2) n) in
  loss_value ← compute (loss_value_v vals_ref_v);
  _ ← compute log_prob_v;
  adv ← compute (adv_v vals_ref_v);
  _ ← compute (log_prob_actions_v actions_t vals_ref_v);
  loss_policy ← compute (loss_policy_v actions_t vals_ref_v);
  _ ← compute prob_v;
  entropy_loss ← compute entropy_loss_v;
  (* calculate policy gradients only *)
  _ ← backward states_v (loss_policy_v actions_t vals_ref_v) true;
  grads ← read_grads;
  (* apply entropy and value gradients *)
  _ ← compute (loss_v vals_ref_v);
  _ ← backward states_v (loss_v vals_ref_v) false;
  _ ← clip_grad CLIP_GRAD;
  _ ← optimizer_step;
  (* get full loss *)
  loss_total ← compute (loss_total_v actions_t vals_ref_v);
  _ ← track "advantage" adv step_idx;
  _ ← track "values" (T2 out.2) step_idx;
  _ ← track "batch_rewards" (T1 vals_ref_v) step_idx;
  _ ← track "loss_entropy" entropy_loss step_idx;
  _ ← track "loss_policy" loss_policy step_idx;
  _ ← track "loss_value" loss_value step_idx;
  _ ← track "loss_total" loss_total step_idx;
  _ ← track "grad_l2"
        (T0 (np_sqrt (fmean (map (λ g, fmul g g) grads)))) step_idx;
  _ ← track "grad_max" (T0 (np_max_abs grads)) step_idx;
  track "grad_var" (T0 (np_var grads)) step_idx.

(** ** The learner loop *)

Record learner := Learner {
  lworld : world;
  batch : list (Experience V);
  step_idx : nat;
  tracker : Tracker
}.

Inductive outcome :=
  | StoppedByEnd          (* break on a None entry *)
  | StoppedByReward       (* break on the tracker's signal *)
  | Raised                (* an exception left the loop *)
  | Waiting.              (* blocked in train_queue.get() *)

(** The [while True] loop over the entries the queue delivers, in the order
    of delivery.  The result: how the loop ended, the state it ended in and
    the entries that were never taken from the queue. *)
Fixpoint learner_loop (queue : list (train_entry V)) (s : learner)
  : outcome * learner * list (train_entry V) :=
  match queue with
  | [] => (Waiting, s, [])
  | TEnd :: rest => (StoppedByEnd, s, rest)
  | TotalReward r :: rest =>
      let res := tracker_reward (tracker s) r (step_idx s) in
      let s' := Learner (lworld s) (batch s) (step_idx s) res.2 in
      if res.1 then (StoppedByReward, s', rest) else learner_loop rest s'
  | TExp exp :: rest =>
      let step_idx' := S (step_idx s) in
      let batch' := batch s ++ [exp] in
      if decide (length batch' < BATCH_SIZE) then
        learner_loop rest (Learner (lworld s) batch' step_idx' (tracker s))
      else
        match unpack_batch batch' (lworld s) with
        | (None, w) => (Raised, Learner w batch' step_idx' (tracker s), rest)
        | (Some (states_v, actions_t, vals_ref_v), w) =>
            (* batch.clear() *)
            match update_step states_v actions_t vals_ref_v step_idx' w with
            | (None, w') => (Raised, Learner w' [] step_idx' (tracker s), rest)
            | (Some _, w') =>
                learner_loop rest (Learner w' [] step_idx' (tracker s))
            end
        end
  end.

(** ** The actor: [data_func] *)

(** The [for exp in exp_source] loop followed by [train_queue.put(None)].
    [queue] is what this actor has put so far; the result is [None] when
    the loop is still running after [fuel] iterations. *)
Fixpoint data_func (fuel : nat) (exp_source : Source) (queue : list (train_entry V))
  : option (list (train_entry V)) :=
  match fuel with
  | O => None
  | S fuel' =>
      match source_next exp_source with
      | None => Some (queue ++ [TEnd])
      | Some (exp, src1) =>
          let popped := pop_total_rewards src1 in
          let queue1 :=
            match popped.1 with
            | [] => queue
            | new_rewards => queue ++ [TotalReward (fmean new_rewards)]
            end in
          data_func fuel' popped.2 (queue1 ++ [TExp exp])
      end
  end.

End Model.

(** ** Specification-side definitions *)

Section Spec.
Context {V : Type} `{Scalar V} `{Torch V} `{Ptan V}.

(** The indices of the tuples of [batch] with a last state, counted from
    [idx]. *)
Fixpoint not_done_from (idx : nat) (batch : list (Experience V)) : list nat :=
  match batch with
  | [] => []
  | exp :: rest =>
      match last_state exp with
      | Some _ => idx :: not_done_from (S idx) rest
      | None => not_done_from (S idx) rest
      end
  end.


(** The reward of a tuple as [unpack_batch] puts it in [rewards_np]
    ([np.array(rewards, dtype=np.float32)]), and the return of one tuple
    computed from it. *)
Definition float32_reward (exp : Experience V) : V := to_float32 (reward exp).

Definition float32_return (value_of : list V → V)
    (h : gmap loc (list V)) (exp : Experience V) : V :=
  match last_state exp with
  | None => float32_reward exp
  | Some l =>
      fadd (float32_reward exp)
        (fmul (fpow GAMMA REWARD_STEPS) (value_of (h !!! l)))
  end.

(** The observations of the last states of a batch, in order. *)
Definition last_observations (h : gmap loc (list V))
    (batch : list (Experience V)) : list (list V) :=
  map (λ l, h !!! l) (omap last_state batch).

(** Every array a tuple refers to is in the heap. *)
Definition exp_allocated (h : gmap loc (list V)) (exp : Experience V) : Prop :=
  is_Some (h !! state exp) ∧
  match last_state exp with
  | Some l => is_Some (h !! l)
  | None => True
  end.

(** The batches [unpack_batch] was called on, the optimizer steps and the
    network evaluations of a trace. *)
Definition unpacked (tr : list (event V)) : list (list (Experience V)) :=
  omap (λ ev, match ev with EvUnpackBatch b => Some b | _ => None end) tr.

Definition optimizer_steps (tr : list (event V)) : nat :=
  length (omap (λ ev, match ev with EvOptimizerStep => Some ev | _ => None end) tr).

Definition net_evaluations (tr : list (event V)) : list (list (list V)) :=
  omap (λ ev, match ev with EvNet x => Some x | _ => None end) tr.

Definition is_track (ev : event V) : Prop :=
  match ev with EvTrack _ _ _ => True | _ => False end.

(** The experience tuples among queue entries, and the number of [None]
    entries. *)
Definition exps_of (q : list (train_entry V)) : list (Experience V) :=
  omap (λ t, match t with TExp exp => Some exp | _ => None end) q.

Definition ends_of (q : list (train_entry V)) : nat :=
  length (omap (λ t, match t with TEnd => Some t | _ => None end) q).

(** What one iteration of the actor puts on the queue: the report, if any
    episode was completed, then the tuple. *)
Definition iteration_puts (it : Experience V * list V) : list (train_entry V) :=
  match it.2 with
  | [] => [TExp it.1]
  | rs => [TotalReward (fmean rs); TExp it.1]
  end.

(** The iterations of an experience source that is over after [n] tuples:
    each tuple with the episode totals popped in its iteration. *)
Fixpoint source_run (n : nat) (src : Source)
  : option (list (Experience V * list V)) :=
  match source_next src with
  | None => match n with O => Some [] | S _ => None end
  | Some (exp, src1) =>
      match n with
      | O => None
      | S n' =>
          let popped := pop_total_rewards src1 in
          its ← source_run n' popped.2;
          Some ((exp, popped.1) :: its)
      end
  end.

(** The conditions under which the update step raises nothing on the
    forward outputs [out]: a full batch, actions within the rows, a value
    column, a defined value loss, and a parameter the policy loss
    reaches. *)
Record update_ready (w : world) (states_v : list (list V))
    (actions_t : list nat) (vals_ref_v : list V) : Prop := {
  ready_states : length (net (params w) states_v).1 = BATCH_SIZE;
  ready_actions :
    Forall2 (λ row a, a < length (F_log_softmax row))
      (net (params w) states_v).1 actions_t;
  ready_rows :
    Forall (λ row, length (F_softmax row) = length (F_log_softmax row))
      (net (params w) states_v).1;
  ready_value : Forall (λ row, length row = 1) (net (params w) states_v).2;
  ready_ref : length vals_ref_v = BATCH_SIZE;
  ready_mse :
    is_Some (F_mse_loss (T2 (net (params w) states_v).2) (T1 vals_ref_v));
  ready_grad :
    Exists (λ g, is_Some g)
      (imap (λ i old,
         grad_accumulate old
           (autograd (params w) states_v (loss_policy_v actions_t vals_ref_v) i))
         (zero_grad (grads w)))
}.

(** The values of the tensors of the update step, on the logits [lg], the
    values [vs] (the column of the value head, read as a list), the
    reference values [ref] and the actions.  [log_probs_of]: the
    log-probability of each row at its action.  [adv_matrix]: what
    [vals_ref_v - value_v.detach()] evaluates to: a vector minus a column
    broadcasts to a matrix, whose entry [(i, j)] is [ref[j] - vs[i]]. *)
Definition log_probs_of (lg : list (list V)) (actions_t : list nat) : list V :=
  zip_with (λ row a, default (lit 0) (F_log_softmax row !! a)) lg actions_t.

Definition adv_matrix (ref vs : list V) : list (list V) :=
  map (λ v, map (λ r, fsub r v) ref) vs.

Definition policy_loss_value (ref vs lps : list V) : V :=
  fneg (fmean (concat (map (λ row, zip_with fmul row lps) (adv_matrix ref vs)))).

Definition entropy_loss_value (lg : list (list V)) : V :=
  fmul ENTROPY_BETA
    (fmean (map (λ row, fsum (zip_with fmul (F_softmax row) (F_log_softmax row)))
              lg)).

(** A computation that leaves an observation of the world as it is,
    whether it raises or not. *)
Definition preserves {A X} (obs : world → X) (m : M A) : Prop :=
  ∀ w, obs (m w).2 = obs w.

(** What the training computations read and write: the parameters, the
    state of the optimizer, the gradients and the graph.  Two computations
    are [related] when, from worlds that agree on it, they have the same
    outcome and leave worlds that agree on it. *)
Definition training_state (w : world)
  : list (list V) * OptState * list (option (list V)) * bool :=
  (params w, opt_state w, grads w, graph_live w).

Definition related {A} (m1 m2 : M A) : Prop :=
  ∀ w1 w2, training_state w1 = training_state w2 →
    (m1 w1).1 = (m2 w2).1 ∧
    training_state (m1 w1).2 = training_state (m2 w2).2.

(** Two worlds the update step cannot tell apart: same parameters, same
    optimizer state, gradients present on the same parameters with the
    same shapes. *)
Definition same_training_state (w1 w2 : world) : Prop :=
  params w1 = params w2 ∧ opt_state w1 = opt_state w2 ∧
  zero_grad (grads w1) = zero_grad (grads w2).

(** A computation that makes [n] optimizer steps when it returns, and at
    most [n] when it raises; the steps made before it are kept. *)
Definition steps_within {A} (n : nat) (m : M A) : Prop :=
  ∀ w,
    optimizer_steps (trace w) ≤ optimizer_steps (trace (m w).2) ∧
    optimizer_steps (trace (m w).2) ≤ n + optimizer_steps (trace w) ∧
    (is_Some (m w).1 →
     optimizer_steps (trace (m w).2) = n + optimizer_steps (trace w)).

(** The calls of [unpack_batch] ([Some batch]) and the optimizer steps
    ([None]) of a trace, in the order in which they were made. *)
Definition update_events (tr : list (event V))
  : list (option (list (Experience V))) :=
  omap (λ ev, match ev with
              | EvUnpackBatch b => Some (Some b)
              | EvOptimizerStep => Some None
              | _ => None
              end) tr.

(** A computation that adds [l] to them when it returns, and a prefix of
    [l] when it raises. *)
Definition adds_within {A} (l : list (option (list (Experience V))))
    (m : M A) : Prop :=
  ∀ w, ∃ l',
    update_events (trace (m w).2) = update_events (trace w) ++ l' ∧
    l' `prefix_of` l ∧
    (is_Some (m w).1 → l' = l).

(** How the learner loop ended on the entries [popped] it took, leaving
    [rest] in the queue: it waits when nothing is left, and otherwise the
    last entry it took is the one that made it stop. *)
Definition stopped_on (o : outcome) (popped rest : list (train_entry V))
  : Prop :=
  match o with
  | Waiting => rest = []
  | StoppedByEnd => last popped = Some TEnd
  | StoppedByReward => ∃ r, last popped = Some (TotalReward r)
  | Raised => ∃ exp, last popped = Some (TExp exp)
  end.

(** Queue entries without the reward reports, and the number of reward
    reports. *)
Definition without_reports (q : list (train_entry V)) : list (train_entry V) :=
  omap (λ t, match t with TotalReward _ => None | _ => Some t end) q.

Definition reports_of (q : list (train_entry V)) : nat :=
  length (omap (λ t, match t with TotalReward _ => Some t | _ => None end) q).

End Spec.

(** ** A run on the rationals *)

(** The model is run on rational numbers.  The rationals carry no
    exponential: in the place of torch's functions stand [softmax_q] (the
    uniform distribution) and [log_softmax_q] (the logits minus their
    maximum, which differs from the logarithm of the softmax by a constant
    per row).  The network adds a bias to the features of an observation;
    the optimizer subtracts the gradient.  An observation is [f0; f1; ...]:
    [f0] feeds the value head, the other features the policy head. *)

Definition qmax_list (l : list Q) : Q :=
  foldr (λ x m, if Qle_bool m x then x else m) 0%Q l.

Definition softmax_q (row : list Q) : list Q :=
  map (λ _, 1 / inject_Z (Z.of_nat (length row)))%Q row.

Definition log_softmax_q (row : list Q) : list Q :=
  map (λ x, x - qmax_list row)%Q row.

Definition mse_loss_q (a b : tensor Q) : option Q :=
  match a, b with
  | T2 m, T1 v =>
      if decide (length (concat m) = length v) then
        Some (fmean (zip_with (λ x y, (x - y) * (x - y))%Q (concat m) v))
      else None
  | _, _ => None
  end.

Definition bias_q (params : list (list Q)) (i : nat) : Q :=
  hd 0%Q (params !!! i).

Definition net_q (params : list (list Q)) (x : list (list Q))
  : list (list Q) * list (list Q) :=
  (map (λ o, map (Qplus (bias_q params 0)) (tail o)) x,
   map (λ o, [(hd 0 o + bias_q params 1)%Q]) x).

(** Parameter 0 belongs to the policy head, parameter 1 to the value
    head. *)
Definition autograd_q (params : list (list Q)) (x : list (list Q))
    (loss : node Q) (i : nat) : option (list Q) :=
  match i with
  | 0 => if flows_to_logits loss then Some [1%Q] else None
  | 1 => if flows_to_value loss then Some [1%Q] else None
  | _ => None
  end.

#[global] Instance Q_Torch : Torch Q := {|
  OptState := nat;
  F_softmax := softmax_q;
  F_log_softmax := log_softmax_q;
  F_mse_loss := mse_loss_q;
  net := net_q;
  autograd := autograd_q;
  clip_grad_norm g max_norm := map (fmap (map (Qmult max_norm))) g;
  adam_step o params g :=
    (zip_with (λ p og, match og with
                       | Some d => zip_with Qminus p d
                       | None => p
                       end) params g, S o);
  np_sqrt x := x;
  np_max_abs l := qmax_list (map Qabs l);
  np_var _ := 0%Q
|}.

(** A tracker that asks to stop at a reward of 18, and an experience source
    that plays a script: the tuples to yield, each with the episode totals
    completed on the way. *)
#[global] Instance Q_Ptan : Ptan Q := {|
  Tracker := nat;
  tracker_reward t r _ := (Qle_bool 18 r, S t);
  Source := list (Experience Q * list Q) * list Q;
  source_next src :=
    match src.1 with
    | [] => None
    | (exp, totals) :: rest => Some (exp, (rest, src.2 ++ totals))
    end;
  pop_total_rewards src := (src.2, (src.1, []))
|}.

(** Two observations: at location 1 a state, at location 2 the state [X]
    of the scenario, which the value head values 2. *)
Definition heap_q : gmap loc (list Q) :=
  <[1%positive := [0; 0; 1]%Q]> (<[2%positive := [2; 0; 1]%Q]> ∅).

Definition world_q : world :=
  World heap_q [[0%Q]; [0%Q]] [None; None] 0%nat false [].

(** The scenario of the design document: two terminal tuples with rewards
    1.0 and -1.0, one tuple with reward 0.5 and last state [X]. *)
Definition scenario_batch : list (Experience Q) :=
  [ Build_Experience Q 1%positive 0 1%Q None;
    Build_Experience Q 1%positive 1 (-1)%Q None;
    Build_Experience Q 1%positive 1 (1 # 2)%Q (Some 2%positive) ].

(** A full batch for the update step: every row has the logits [0; 1] and
    the return 0; the value head gives 128 on row 0 and 0 on the others;
    row 0 chose action 0, the others action 1. *)
Definition full_states : list (list Q) :=
  [128; 0; 1]%Q :: replicate 127 [0; 0; 1]%Q.
Definition full_actions : list nat := 0 :: replicate 127 1.
Definition full_returns : list Q := replicate 128 0%Q.

(** The policy loss of the design document on given rows: minus the mean of
    [(return - value) * log_prob[action]], row by row. *)
Definition policy_loss_per_row (returns values log_probs : list Q) : Q :=
  fneg (fmean (zip_with Qmult (zip_with Qminus returns values) log_probs)).

(** A learner at its start, and a queue of 130 tuples. *)
Definition learner_q : learner := Learner world_q [] 0 0%nat.

Definition terminal_exp (r : Q) : Experience Q :=
  Build_Experience Q 1%positive 0 r None.


Definition queue_130 : list (train_entry Q) :=
  map (λ i, TExp (terminal_exp (inject_Z (Z.of_nat i)))) (seq 0 130).

(** A script of two tuples; an episode ends on the way to the second. *)
Definition source_q : Source :=
  ([(terminal_exp 1, []); (terminal_exp 2, [3; 5]%Q)], []).

(** A queue with a reward report between two tuples; the report is below
    the bound of the tracker. *)
Definition queue_report : list (train_entry Q) :=
  [TExp (terminal_exp 1); TotalReward 3%Q; TExp (terminal_exp 2)].

(** A torch whose value head returns no row at all, and a world for it. *)
Definition Q_Torch_no_value : Torch Q := {|
  OptState := nat;
  F_softmax := softmax_q;
  F_log_softmax := log_softmax_q;
  F_mse_loss := mse_loss_q;
  net params x := ((net_q params x).1, []);
  autograd := autograd_q;
  clip_grad_norm g max_norm := map (fmap (map (Qmult max_norm))) g;
  adam_step o params g := (params, S o);
  np_sqrt x := x;
  np_max_abs l := qmax_list (map Qabs l);
  np_var _ := 0%Q
|}.

Definition world_no_value : @world Q Q_Torch_no_value :=
  @World Q Q_Torch_no_value heap_q [[0%Q]; [0%Q]] [None; None] 0%nat false [].

(** * Proofs *)

Section Proofs.
Context {V : Type} `{Scalar V} `{Torch V} `{Ptan V}.
Implicit Types (w : world) (batch : list (Experience V)).

(** *** The monad *)

Ltac wsimpl :=
  cbn [heap set_heap params grads opt_state graph_live trace fst snd] in *.

Lemma bind_some {A B} (m : M A) (f : A → M B) w a w' :
  m w = (Some a, w') → (m ≫= f) w = f a w'.
Proof. intros E. unfold mbind, M_bind. by rewrite E. Qed.

Lemma bind_none {A B} (m : M A) (f : A → M B) w w' :
  m w = (None, w') → (m ≫= f) w = (None, w').
Proof. intros E. unfold mbind, M_bind. by rewrite E. Qed.

(** Reading a list of arrays that are all in the heap. *)
Lemma mapM_ndarray_get (ls : list loc) w :
  Forall (λ l, is_Some (heap w !! l)) ls →
  mapM ndarray_get ls w = (Some (map (λ l, heap w !!! l) ls), w).
Proof.
  induction 1 as [|l ls [d Hd] _ IH]; [done|].
  cbn [mapM]. erewrite bind_some; last first.
  { unfold ndarray_get. by rewrite Hd. }
  erewrite bind_some; [|exact IH].
  cbn. by rewrite (lookup_total_correct _ _ _ Hd).
Qed.

(** Reading arrays leaves the world as it is, also when it raises. *)
Lemma mapM_ndarray_get_world (ls : list loc) w :
  (mapM ndarray_get ls w).2 = w.
Proof.
  induction ls as [|l ls IH]; [done|].
  cbn [mapM]. unfold mbind at 1, M_bind at 1.
  unfold ndarray_get at 1. destruct (heap w !! l); [|done].
  unfold mbind at 1, M_bind at 1.
  destruct (mapM ndarray_get ls w) as [[r|] w'] eqn:E; cbn in *; congruence.
Qed.

(** *** The loop of [unpack_batch] *)

Lemma unpack_loop_spec idx batch a :
  acc_states (unpack_loop idx batch a) = acc_states a ++ map state batch ∧
  acc_actions (unpack_loop idx batch a) = acc_actions a ++ map action batch ∧
  acc_rewards (unpack_loop idx batch a) = acc_rewards a ++ map reward batch ∧
  acc_not_done_idx (unpack_loop idx batch a)
    = acc_not_done_idx a ++ not_done_from idx batch ∧
  acc_last_states (unpack_loop idx batch a)
    = acc_last_states a ++ omap last_state batch.
Proof.
  revert idx a. induction batch as [|exp batch IH]; intros idx a.
  { cbn. by rewrite !app_nil_r. }
  cbn [unpack_loop]. destruct (IH (S idx) (unpack_visit idx exp a))
    as (E1 & E2 & E3 & E4 & E5).
  rewrite E1, E2, E3, E4, E5. cbn.
  destruct (last_state exp); cbn; by rewrite <- !app_assoc.
Qed.

Lemma not_done_from_nil idx batch :
  not_done_from idx batch = [] ↔ Forall (λ exp, last_state exp = None) batch.
Proof.
  revert idx. induction batch as [|exp batch IH]; intros idx; cbn.
  { split; [constructor|done]. }
  destruct (last_state exp) eqn:E.
  - split; [done|]. inversion 1; congruence.
  - rewrite IH. split; [by constructor|]. by inversion 1.
Qed.

(** The gather [a[not_done_idx]] reads the float32 rewards of the tuples
    that have a last state. *)
Lemma gather_not_done (pre : list V) batch :
  mapM (λ i, (pre ++ map float32_reward batch) !! i)
    (not_done_from (length pre) batch)
  = Some (map float32_reward (filter (λ exp, is_Some (last_state exp)) batch)).
Proof.
  revert pre. induction batch as [|exp batch IH]; intros pre; [done|].
  cbn [not_done_from map].
  specialize (IH (pre ++ [float32_reward exp])).
  rewrite <- app_assoc, length_app, Nat.add_1_r in IH. cbn [app length] in IH.
  destruct (last_state exp) as [l|] eqn:E.
  - rewrite filter_cons_True by (rewrite E; eauto).
    cbn [mapM map]. rewrite list_lookup_middle by done.
    cbn. by rewrite IH.
  - rewrite filter_cons_False by (rewrite E; by inversion 1).
    by rewrite IH.
Qed.

(** Adding the discounted values to the gathered rewards gives the
    returns of the tuples that have a last state. *)
Lemma add_bootstrap value_of (h : gmap loc (list V)) batch :
  iadd_bcast (map float32_reward (filter (λ exp, is_Some (last_state exp)) batch))
    (map (fmul (fpow GAMMA REWARD_STEPS))
       (map value_of (last_observations h batch)))
  = Some (map (float32_return value_of h)
            (filter (λ exp, is_Some (last_state exp)) batch)).
Proof.
  unfold iadd_bcast, last_observations.
  assert (Hlen : length (omap last_state batch)
                 = length (filter (λ exp, is_Some (last_state exp)) batch)).
  { induction batch as [|exp batch IH]; [done|]. cbn [omap list_omap].
    destruct (last_state exp) eqn:E.
    - rewrite filter_cons_True by (rewrite E; eauto).
      cbn [length]. by f_equal.
    - rewrite filter_cons_False by (rewrite E; by inversion 1). done. }
  rewrite decide_True by (by rewrite !length_map).
  f_equal. clear Hlen.
  induction batch as [|exp batch IH]; [done|]. cbn [omap list_omap].
  destruct (last_state exp) as [l|] eqn:E.
  - rewrite filter_cons_True by (rewrite E; eauto). cbn [map zip_with].
    rewrite IH. f_equal. unfold float32_return. by rewrite E.
  - rewrite filter_cons_False by (rewrite E; by inversion 1). done.
Qed.

(** Writing them back at [not_done_idx] gives the return of every
    tuple. *)
Lemma scatter_bootstrap value_of (h : gmap loc (list V)) (pre : list V) batch :
  scatter (pre ++ map float32_reward batch) (not_done_from (length pre) batch)
    (map (float32_return value_of h)
       (filter (λ exp, is_Some (last_state exp)) batch))
  = Some (pre ++ map (float32_return value_of h) batch).
Proof.
  revert pre. induction batch as [|exp batch IH]; intros pre; [done|].
  cbn [not_done_from]. destruct (last_state exp) as [l|] eqn:E.
  - rewrite filter_cons_True by (rewrite E; eauto).
    cbn [map scatter].
    rewrite decide_True by (rewrite length_app; cbn; lia).
    replace (<[length pre := float32_return value_of h exp]>
               (pre ++ float32_reward exp :: map float32_reward batch))
      with ((pre ++ [float32_return value_of h exp]) ++ map float32_reward batch).
    2:{ rewrite insert_app_r_alt by lia. rewrite Nat.sub_diag. cbn.
        by rewrite <- app_assoc. }
    replace (S (length pre))
      with (length (pre ++ [float32_return value_of h exp])).
    2:{ rewrite length_app. cbn. lia. }
    rewrite IH. by rewrite <- app_assoc.
  - rewrite filter_cons_False by (rewrite E; by inversion 1).
    cbn [map].
    replace (pre ++ float32_reward exp :: map float32_reward batch)
      with ((pre ++ [float32_reward exp]) ++ map float32_reward batch)
      by (by rewrite <- app_assoc).
    replace (S (length pre)) with (length (pre ++ [float32_reward exp])).
    2:{ rewrite length_app. cbn. lia. }
    rewrite IH. rewrite <- app_assoc. cbn.
    do 3 f_equal. unfold float32_return. by rewrite E.
Qed.

(** *** [unpack_batch] on a batch whose arrays are in the heap *)

Lemma column_0 (value_of : list V → V) (obs : list (list V)) :
  mapM (λ row : list V, row !! 0%nat) (map (λ o, [value_of o]) obs)
  = Some (map value_of obs).
Proof. induction obs as [|o obs IH]; [done|]. cbn. by rewrite IH. Qed.

Lemma ndarray_iadd_at_some l idxs b a tmp tmp' a' w :
  heap w !! l = Some a →
  mapM (λ i, a !! i) idxs = Some tmp →
  iadd_bcast tmp b = Some tmp' →
  scatter a idxs tmp' = Some a' →
  ndarray_iadd_at l idxs b w = (Some tt, set_heap (<[l := a']> (heap w)) w).
Proof.
  intros Hl Hg Ha Hs. unfold ndarray_iadd_at.
  erewrite bind_some by (unfold ndarray_get; by rewrite Hl).
  rewrite Hg. erewrite bind_some by done.
  rewrite Ha. erewrite bind_some by done.
  rewrite Hs. erewrite bind_some by done.
  unfold ndarray_set. by rewrite Hl.
Qed.

(** The world [unpack_batch] leaves: the rewards array at a fresh location,
    and the network evaluated once if some tuple has a last state, not at
    all otherwise. *)
Lemma unpack_batch_spec value_of batch w :
  Forall (exp_allocated (heap w)) batch →
  (not_done_from 0 batch ≠ [] →
   (net (params w) (last_observations (heap w) batch)).2
   = map (λ o, [value_of o]) (last_observations (heap w) batch)) →
  unpack_batch batch w
  = (Some (map (λ exp, heap w !!! state exp) batch, map action batch,
           map (float32_return value_of (heap w)) batch),
     World
       (<[fresh (dom (heap w))
          := map (float32_return value_of (heap w)) batch]> (heap w))
       (params w) (grads w) (opt_state w) (graph_live w)
       (trace w ++ EvUnpackBatch batch ::
          match not_done_from 0 batch with
          | [] => []
          | _ :: _ => [EvNet (last_observations (heap w) batch)]
          end)).
Proof.
  intros Halloc Hnet. unfold unpack_batch.
  destruct (unpack_loop_spec 0 batch unpack_acc_init) as (E1 & E2 & E3 & E4 & E5).
  cbn [unpack_acc_init acc_states acc_actions acc_rewards acc_not_done_idx
       acc_last_states app] in *.
  erewrite bind_some by reflexivity. cbv zeta.
  rewrite E1, E2, E3, E4, E5, (map_map reward to_float32).
  change (map (λ exp, to_float32 (reward exp)) batch)
    with (map float32_reward batch).
  erewrite bind_some; last first.
  { apply mapM_ndarray_get. cbn. apply Forall_map.
    eapply Forall_impl; [exact Halloc|]. by intros exp [? _]. }
  cbn [heap]. rewrite map_map.
  erewrite bind_some by reflexivity.
  cbn [heap params grads opt_state graph_live trace set_heap].
  set (l := fresh (dom (heap w))).
  assert (Hfresh : heap w !! l = None).
  { apply not_elem_of_dom. apply is_fresh. }
  destruct (not_done_from 0 batch) as [|i idxs] eqn:Eidx.
  - erewrite bind_some by reflexivity.
    assert (Hret : map (float32_return value_of (heap w)) batch
                   = map float32_reward batch).
    { apply not_done_from_nil in Eidx. clear -Eidx.
      induction Eidx as [|exp batch E _ IH]; [done|]. cbn. rewrite IH.
      f_equal. unfold float32_return. by rewrite E. }
    rewrite Hret.
    erewrite bind_some; last first.
    { unfold ndarray_get. cbn. by rewrite lookup_insert_eq. }
    done.
  - rewrite <- Eidx in *.
    specialize (Hnet ltac:(rewrite Eidx; done)).
    erewrite bind_some; last first.
    { erewrite bind_some; last first.
      { apply mapM_ndarray_get. cbn. apply Forall_forall. intros l' Hl'.
        apply list_elem_of_omap in Hl' as (exp & Hexp & Hl').
        rewrite Forall_forall in Halloc. destruct (Halloc _ Hexp) as [_ Hls].
        rewrite Hl' in Hls. destruct Hls as [d Hd].
        rewrite lookup_insert_ne by congruence. eauto. }
      cbn [heap].
      assert (Hobs : map (λ l', <[l := map float32_reward batch]> (heap w) !!! l')
                       (omap last_state batch)
                     = last_observations (heap w) batch).
      { unfold last_observations. apply map_ext_in. intros l' Hl'.
        apply list_elem_of_In, list_elem_of_omap in Hl' as (exp & Hexp & Hl').
        rewrite Forall_forall in Halloc. destruct (Halloc _ Hexp) as [_ Hls].
        rewrite Hl' in Hls. destruct Hls as [d Hd].
        unfold lookup_total, map_lookup_total.
        rewrite lookup_insert_ne by congruence. done. }
      wsimpl. rewrite Hobs.
      erewrite bind_some by reflexivity.
      wsimpl. rewrite Hnet, column_0.
      erewrite bind_some by reflexivity.
      eapply (ndarray_iadd_at_some l); wsimpl.
      - by rewrite lookup_insert_eq.
      - apply (gather_not_done []).
      - apply add_bootstrap.
      - apply (scatter_bootstrap value_of (heap w) []). }
    wsimpl. rewrite insert_insert_eq.
    erewrite bind_some; last first.
    { unfold ndarray_get. cbn. by rewrite lookup_insert_eq. }
    cbn. by rewrite <- app_assoc.
Qed.



(** C10 (amended). On a batch in which no tuple has a last state,
    [unpack_batch] does not evaluate the network, and the reference values
    it returns are the rewards of the tuples converted to float32: the
    stored rewards themselves when these are float32 numbers. *)
Theorem unpack_batch_all_terminal batch w :
  Forall (λ exp, last_state exp = None) batch →
  Forall (λ exp, is_Some (heap w !! state exp)) batch →
  ∃ states_v w',
    unpack_batch batch w
    = (Some (states_v, map action batch,
             map (λ exp, to_float32 (reward exp)) batch), w') ∧
    trace w' = trace w ++ [EvUnpackBatch batch] ∧
    net_evaluations (trace w') = net_evaluations (trace w) ∧
    (Forall (λ exp, to_float32 (reward exp) = reward exp) batch →
     map (λ exp, to_float32 (reward exp)) batch = map reward batch).
Proof.
  intros Hnone Hstate.
  assert (Hidx : not_done_from 0 batch = []) by by apply not_done_from_nil.
  assert (Halloc : Forall (exp_allocated (heap w)) batch).
  { rewrite Forall_forall in *. intros exp Hexp. split; [by apply Hstate|].
    by rewrite (Hnone _ Hexp). }
  pose proof (unpack_batch_spec (λ _, lit 0) batch w Halloc) as E.
  rewrite Hidx in E. specialize (E ltac:(done)).
  assert (Hret : map (float32_return (λ _, lit 0) (heap w)) batch
                 = map (λ exp, to_float32 (reward exp)) batch).
  { clear -Hnone. induction Hnone as [|exp batch E _ IH]; [done|].
    cbn. rewrite IH. f_equal. unfold float32_return. by rewrite E. }
  rewrite Hret in E. do 2 eexists. split; [exact E|].
  wsimpl. split; [done|]. split.
  - unfold net_evaluations. by rewrite omap_app, app_nil_r.
  - clear. induction 1 as [|exp batch E _ IH]; [done|].
    cbn. by rewrite E, IH.
Qed.

(** *** The frame of [unpack_batch] *)

Lemma bind_inv {A B} (m : M A) (f : A → M B) w (Q : world → Prop) :
  (∀ a w', m w = (Some a, w') → Q (f a w').2) →
  (∀ w', m w = (None, w') → Q w') →
  Q ((m ≫= f) w).2.
Proof.
  intros Hs Hn. unfold mbind, M_bind.
  destruct (m w) as [[a|] w'] eqn:E; eauto.
Qed.

Lemma lift_opt_world {A} (o : option A) w : (lift_opt o w).2 = w.
Proof. by destruct o. Qed.

Lemma lift_opt_inv {A} (o : option A) w r w' :
  lift_opt o w = (r, w') → w' = w.
Proof. unfold lift_opt, mret, M_ret, raise. destruct o; congruence. Qed.

Lemma ndarray_get_inv l w r w' : ndarray_get l w = (r, w') → w' = w.
Proof. unfold ndarray_get. destruct (heap w !! l); congruence. Qed.

Lemma mapM_ndarray_get_inv ls w r w' :
  mapM ndarray_get ls w = (r, w') → w' = w.
Proof. intros E. by rewrite <- (mapM_ndarray_get_world ls w), E. Qed.

(** Writing to the array at [l] keeps every part of the heap that does not
    hold [l]. *)
Lemma ndarray_iadd_at_frame (h0 : gmap loc (list V)) l idxs b w :
  h0 ⊆ heap w → h0 !! l = None →
  h0 ⊆ heap (ndarray_iadd_at l idxs b w).2.
Proof.
  intros Hsub Hl. unfold ndarray_iadd_at.
  apply bind_inv; [intros a w1 E1|intros w1 E1];
    apply ndarray_get_inv in E1 as ->; [|done].
  apply bind_inv; [intros tmp w1 E1|intros w1 E1];
    apply lift_opt_inv in E1 as ->; [|done].
  apply bind_inv; [intros tmp' w1 E1|intros w1 E1];
    apply lift_opt_inv in E1 as ->; [|done].
  apply bind_inv; [intros a' w1 E1|intros w1 E1];
    apply lift_opt_inv in E1 as ->; [|done].
  unfold ndarray_set. destruct (heap w !! l) eqn:E; [|done]. wsimpl.
  by apply insert_subseteq_r.
Qed.

Lemma ndarray_new_inv data w r w' :
  ndarray_new data w = (r, w') →
  ∃ l, r = Some l ∧ heap w !! l = None ∧ heap w' = <[l := data]> (heap w).
Proof.
  unfold ndarray_new. intros [= <- <-]. eexists. split; [done|].
  split; [|done]. apply not_elem_of_dom, is_fresh.
Qed.

Lemma net_forward_inv volatile x w r w' :
  net_forward volatile x w = (r, w') → is_Some r ∧ heap w' = heap w.
Proof. unfold net_forward. intros [= <- <-]. eauto. Qed.

Lemma log_inv ev w r w' :
  log ev w = (r, w') → r = Some tt ∧ heap w' = heap w.
Proof. unfold log. by intros [= <- <-]. Qed.

(** C8. [unpack_batch] changes no array that was in the heap when it was
    called, whatever the outcome: the arrays the tuples refer to are after
    the call what they were before it (the tuples themselves are immutable
    values), and the bootstrap term goes to an array allocated by the
    call. *)
Theorem unpack_batch_frame batch w :
  heap w ⊆ heap (unpack_batch batch w).2.
Proof.
  unfold unpack_batch.
  apply bind_inv; [intros [] w1 E1|intros w1 E1];
    apply log_inv in E1 as [E1 Hw1]; [|done].
  cbv zeta.
  apply bind_inv; [intros states_v w2 E2|intros w2 E2];
    apply mapM_ndarray_get_inv in E2 as ->; [|rewrite Hw1; reflexivity].
  apply bind_inv; [intros l w2 E2|intros w2 E2];
    apply ndarray_new_inv in E2 as (l' & E2 & Hl & Hw2); [|done].
  injection E2 as <-. rewrite Hw1 in *.
  assert (Hsub : heap w ⊆ heap w2).
  { rewrite Hw2. by apply insert_subseteq. }
  clear E1 Hw1 Hw2.
  assert (Hmid : ∀ r w3,
    match acc_not_done_idx (unpack_loop 0 batch unpack_acc_init) with
    | [] => mret ()
    | _ :: _ =>
        mapM ndarray_get
          (acc_last_states (unpack_loop 0 batch unpack_acc_init))
        ≫= λ last_states_v,
             net_forward true last_states_v
             ≫= λ out,
                  lift_opt (mapM (λ row : list V, row !! 0%nat) out.2)
                  ≫= λ last_vals_np,
                       ndarray_iadd_at l
                         (acc_not_done_idx
                            (unpack_loop 0 batch unpack_acc_init))
                         (map (fmul (fpow GAMMA REWARD_STEPS)) last_vals_np)
    end w2 = (r, w3) → heap w ⊆ heap w3).
  { intros r w3 E3.
    destruct (acc_not_done_idx _); [by injection E3 as _ <-|].
    change w3 with (r, w3).2. rewrite <- E3. clear E3.
    apply bind_inv; [intros obs w5 E5|intros w5 E5];
      apply mapM_ndarray_get_inv in E5 as ->; [|done].
    apply bind_inv; [intros out w5 E5|intros w5 E5];
      apply net_forward_inv in E5 as [E5 Hw5]; [|by destruct E5].
    apply bind_inv; [intros vals w6 E6|intros w6 E6];
      apply lift_opt_inv in E6 as ->; [|by rewrite Hw5].
    apply ndarray_iadd_at_frame; [by rewrite Hw5|done]. }
  apply bind_inv; [intros [] w3 E3|intros w3 E3]; [|by eapply Hmid].
  apply bind_inv; [intros r w4 E4|intros w4 E4];
    apply ndarray_get_inv in E4 as ->; by eapply Hmid.
Qed.

(** *** The actor *)

(** C6. When the experience source is over after [n] tuples, [data_func]
    has put, for each iteration in order, the report of the episodes
    completed in it (if any) and then its tuple, and the end marker last. *)
Theorem data_func_puts n fuel exp_source its queue :
  source_run n exp_source = Some its → n < fuel →
  data_func fuel exp_source queue
  = Some (queue ++ concat (map iteration_puts its) ++ [TEnd]).
Proof.
  revert fuel exp_source its queue.
  induction n as [|n IH]; intros [|fuel] exp_source its queue Hrun Hfuel;
    try lia; cbn in Hrun |- *;
    destruct (source_next exp_source) as [[exp src1]|]; try done.
  - by injection Hrun as <-.
  - destruct (source_run n (pop_total_rewards src1).2) as [its'|] eqn:E;
      [|done].
    injection Hrun as <-.
    rewrite (IH fuel _ its') by (done || lia). f_equal.
    cbn [map concat]. unfold iteration_puts at 2. cbn [fst snd].
    destruct (pop_total_rewards src1).1; cbn; by rewrite <- !app_assoc.
Qed.

(** *** Observations that a computation preserves *)

Lemma preserves_bind {A B X} (obs : world → X) (m : M A) (f : A → M B) :
  preserves obs m → (∀ a, preserves obs (f a)) → preserves obs (m ≫= f).
Proof.
  intros Hm Hf w. unfold mbind, M_bind.
  specialize (Hm w). destruct (m w) as [[a|] w']; cbn in Hm.
  - by rewrite Hf.
  - done.
Qed.

Lemma preserves_ret {A X} (obs : world → X) (a : A) : preserves obs (mret a).
Proof. done. Qed.

Lemma preserves_lift_opt {A X} (obs : world → X) (o : option A) :
  preserves obs (lift_opt o).
Proof. intros w. by rewrite lift_opt_world. Qed.

Lemma preserves_mapM_ndarray_get {X} (obs : world → X) ls :
  preserves obs (mapM ndarray_get ls).
Proof. intros w. by rewrite mapM_ndarray_get_world. Qed.

Lemma preserves_ndarray_get {X} (obs : world → X) l :
  preserves obs (ndarray_get l).
Proof. intros w. unfold ndarray_get. by destruct (heap w !! l). Qed.

(** What touches the heap only preserves what is read off the trace. *)
Lemma preserves_ndarray_new {X} (f : list (event V) → X) data :
  preserves (λ w, f (trace w)) (ndarray_new data).
Proof. done. Qed.

Lemma preserves_ndarray_set {X} (f : list (event V) → X) l data :
  preserves (λ w, f (trace w)) (ndarray_set l data).
Proof. intros w. unfold ndarray_set. by destruct (heap w !! l). Qed.

Lemma preserves_ndarray_iadd_at {X} (f : list (event V) → X) l idxs b :
  preserves (λ w, f (trace w)) (ndarray_iadd_at l idxs b).
Proof.
  unfold ndarray_iadd_at.
  repeat (apply preserves_bind; [|intros ?]);
    auto using preserves_ndarray_get, preserves_lift_opt,
      preserves_ndarray_set.
Qed.

(** *** The batches handed to [unpack_batch] *)

Lemma unpacked_snoc (tr : list (event V)) ev :
  (∀ b, ev ≠ EvUnpackBatch b) → unpacked (tr ++ [ev]) = unpacked tr.
Proof.
  intros Hev. unfold unpacked. rewrite omap_app. cbn.
  destruct ev as [b| | | | | | |]; try by rewrite app_nil_r.
  by destruct (Hev b).
Qed.

Lemma preserves_net_forward volatile x :
  preserves (λ w, unpacked (trace w)) (net_forward volatile x).
Proof. intros w. by apply unpacked_snoc. Qed.

Lemma preserves_zero_grad :
  preserves (λ w, unpacked (trace w)) optimizer_zero_grad.
Proof. intros w. by apply unpacked_snoc. Qed.

Lemma preserves_backward x loss retain_graph :
  preserves (λ w, unpacked (trace w)) (backward x loss retain_graph).
Proof.
  intros w. unfold backward. destruct (graph_live w); [|done].
  by apply unpacked_snoc.
Qed.

Lemma preserves_read_grads : preserves (λ w, unpacked (trace w)) read_grads.
Proof.
  intros w. unfold read_grads.
  destruct (omap id (grads w)); by apply unpacked_snoc.
Qed.

Lemma preserves_clip_grad max_norm :
  preserves (λ w, unpacked (trace w)) (clip_grad max_norm).
Proof. intros w. by apply unpacked_snoc. Qed.

Lemma preserves_optimizer_step :
  preserves (λ w, unpacked (trace w)) optimizer_step.
Proof. intros w. by apply unpacked_snoc. Qed.

Lemma preserves_track name data k :
  preserves (λ w, unpacked (trace w)) (track name data k).
Proof. intros w. by apply unpacked_snoc. Qed.

(** A computation is taken apart, step by step, down to its primitives. *)
Ltac preserves_step :=
  cbv beta zeta;
  lazymatch goal with
  | |- preserves _ (mret _) => apply preserves_ret
  | |- preserves _ (lift_opt _) => apply preserves_lift_opt
  | |- preserves _ (mapM ndarray_get _) => apply preserves_mapM_ndarray_get
  | |- preserves _ (ndarray_get _) => apply preserves_ndarray_get
  | |- preserves _ (ndarray_new _) => apply (preserves_ndarray_new unpacked)
  | |- preserves _ (ndarray_iadd_at _ _ _) =>
      apply (preserves_ndarray_iadd_at unpacked)
  | |- preserves _ (net_forward _ _) => apply preserves_net_forward
  | |- preserves _ optimizer_zero_grad => apply preserves_zero_grad
  | |- preserves _ (backward _ _ _) => apply preserves_backward
  | |- preserves _ read_grads => apply preserves_read_grads
  | |- preserves _ (clip_grad _) => apply preserves_clip_grad
  | |- preserves _ optimizer_step => apply preserves_optimizer_step
  | |- preserves _ (track _ _ _) => apply preserves_track
  | |- preserves _ (mbind _ _) => apply preserves_bind; [|intros ?]
  | |- preserves _ (match ?x with _ => _ end) => destruct x
  end.

Lemma update_step_unpacked states_v actions_t vals_ref_v k :
  preserves (λ w, unpacked (trace w))
    (update_step states_v actions_t vals_ref_v k).
Proof. unfold update_step. repeat preserves_step. Qed.

Lemma unpack_batch_unpacked batch w :
  unpacked (trace (unpack_batch batch w).2) = unpacked (trace w) ++ [batch].
Proof.
  unfold unpack_batch. erewrite bind_some by reflexivity. cbv zeta.
  match goal with
  | |- unpacked (trace (?m ?w1).2) = _ =>
      assert (Hm : preserves (λ w, unpacked (trace w)) m)
  end.
  { repeat preserves_step. }
  rewrite Hm. wsimpl. unfold unpacked. by rewrite omap_app.
Qed.

(** *** The learner loop *)

(** *** The calls of [unpack_batch] and the optimizer steps *)

Lemma update_events_snoc (tr : list (event V)) ev :
  (∀ b, ev ≠ EvUnpackBatch b) → ev ≠ EvOptimizerStep →
  update_events (tr ++ [ev]) = update_events tr.
Proof.
  intros Hb Hs. unfold update_events. rewrite omap_app.
  destruct ev as [b| | | | | | |]; cbn; rewrite ?app_nil_r; try done.
  by destruct (Hb b).
Qed.

Lemma quiet_net_forward volatile x :
  preserves (λ w, update_events (trace w)) (net_forward volatile x).
Proof. intros w. by apply update_events_snoc. Qed.

Lemma quiet_zero_grad :
  preserves (λ w, update_events (trace w)) optimizer_zero_grad.
Proof. intros w. by apply update_events_snoc. Qed.

Lemma quiet_backward x loss retain_graph :
  preserves (λ w, update_events (trace w)) (backward x loss retain_graph).
Proof.
  intros w. unfold backward. destruct (graph_live w); [|done].
  by apply update_events_snoc.
Qed.

Lemma quiet_read_grads :
  preserves (λ w, update_events (trace w)) read_grads.
Proof.
  intros w. unfold read_grads. cbv zeta.
  destruct (omap id (grads w)); by apply update_events_snoc.
Qed.

Lemma quiet_clip_grad max_norm :
  preserves (λ w, update_events (trace w)) (clip_grad max_norm).
Proof. intros w. by apply update_events_snoc. Qed.

Lemma quiet_track name data k :
  preserves (λ w, update_events (trace w)) (track name data k).
Proof. intros w. by apply update_events_snoc. Qed.

Ltac quiet_step :=
  cbv beta zeta;
  lazymatch goal with
  | |- preserves _ (mret _) => apply preserves_ret
  | |- preserves _ (lift_opt _) => apply preserves_lift_opt
  | |- preserves _ (mapM ndarray_get _) => apply preserves_mapM_ndarray_get
  | |- preserves _ (ndarray_get _) => apply preserves_ndarray_get
  | |- preserves _ (ndarray_new _) =>
      apply (preserves_ndarray_new update_events)
  | |- preserves _ (ndarray_iadd_at _ _ _) =>
      apply (preserves_ndarray_iadd_at update_events)
  | |- preserves _ (net_forward _ _) => apply quiet_net_forward
  | |- preserves _ optimizer_zero_grad => apply quiet_zero_grad
  | |- preserves _ (backward _ _ _) => apply quiet_backward
  | |- preserves _ read_grads => apply quiet_read_grads
  | |- preserves _ (clip_grad _) => apply quiet_clip_grad
  | |- preserves _ (track _ _ _) => apply quiet_track
  | |- preserves _ (mbind _ _) => apply preserves_bind; [|intros ?]
  | |- preserves _ (match ?x with _ => _ end) => destruct x
  end.

Lemma adds_within_quiet {A} (m : M A) :
  preserves (λ w, update_events (trace w)) m → adds_within [] m.
Proof.
  intros Hm w. exists []. split; [|done].
  rewrite app_nil_r. apply Hm.
Qed.

Lemma adds_within_bind {A B} l1 l2 l (m : M A) (f : A → M B) :
  adds_within l1 m → (∀ x, adds_within l2 (f x)) → l = l1 ++ l2 →
  adds_within l (m ≫= f).
Proof.
  intros Hm Hf -> w. unfold mbind, M_bind.
  destruct (Hm w) as (l1' & E1 & Hp1 & Hs1).
  destruct (m w) as [[x|] w1]; wsimpl.
  - rewrite (Hs1 ltac:(by eexists)) in E1.
    destruct (Hf x w1) as (l2' & E2 & Hp2 & Hs2).
    exists (l1 ++ l2'). rewrite E2, E1, <- app_assoc. split; [done|].
    split; [by apply prefix_app|]. intros Hs. by rewrite (Hs2 Hs).
  - exists l1'. split; [done|]. split; [by apply prefix_app_r|].
    by intros [? ?].
Qed.

Lemma adds_within_optimizer_step : adds_within [None] optimizer_step.
Proof.
  intros w. exists [None]. unfold optimizer_step, update_events. wsimpl.
  by rewrite omap_app.
Qed.

Ltac adds_step :=
  cbv beta zeta;
  lazymatch goal with
  | |- adds_within _ (optimizer_step ≫= _) =>
      eapply adds_within_bind;
        [apply adds_within_optimizer_step|intros ?; adds_step|reflexivity]
  | |- adds_within _ (_ ≫= _) =>
      eapply adds_within_bind;
        [apply adds_within_quiet; quiet_step|intros ?; adds_step|reflexivity]
  | |- adds_within _ _ => apply adds_within_quiet; quiet_step
  end.

(** One update step makes one optimizer step when it returns, at most one
    when it raises, and calls [unpack_batch] in neither case. *)
Lemma update_step_adds states_v actions_t vals_ref_v k :
  adds_within [None] (update_step states_v actions_t vals_ref_v k).
Proof. unfold update_step. adds_step. Qed.

Lemma unpack_batch_adds batch w :
  update_events (trace (unpack_batch batch w).2)
  = update_events (trace w) ++ [Some batch].
Proof.
  unfold unpack_batch. erewrite bind_some by reflexivity. cbv zeta.
  match goal with
  | |- update_events (trace (?m ?w1).2) = _ =>
      assert (Hm : preserves (λ w, update_events (trace w)) m)
  end.
  { repeat quiet_step. }
  rewrite Hm. wsimpl. unfold update_events. by rewrite omap_app.
Qed.

Lemma length_concat_full (bs : list (list (Experience V))) :
  Forall (λ b, length b = BATCH_SIZE) bs →
  length (concat bs) = BATCH_SIZE * length bs.
Proof.
  induction 1 as [|b bs Hb _ IH]; cbn [concat length]; [lia|].
  rewrite length_app, Hb, IH. lia.
Qed.

(** The learner loop, entry by entry: what it took from the queue, the
    batches it handed to [unpack_batch], and the optimizer steps. *)
Lemma learner_loop_batches queue s :
  length (batch s) < BATCH_SIZE →
  ∃ popped new_batches,
    queue = popped ++ (learner_loop queue s).2 ∧
    stopped_on (learner_loop queue s).1.1 popped (learner_loop queue s).2 ∧
    Forall (λ b, length b = BATCH_SIZE) new_batches ∧
    match (learner_loop queue s).1.1 with
    | Raised =>
        new_batches ≠ [] ∧
        batch s ++ exps_of popped = concat new_batches ∧
        ∃ tl, tl `prefix_of` [None] ∧
          update_events (trace (lworld (learner_loop queue s).1.2))
          = update_events (trace (lworld s))
            ++ removelast (concat (map (λ b, [Some b; None]) new_batches))
            ++ tl
    | _ =>
        batch s ++ exps_of popped
        = concat new_batches ++ batch (learner_loop queue s).1.2 ∧
        length (batch (learner_loop queue s).1.2) < BATCH_SIZE ∧
        update_events (trace (lworld (learner_loop queue s).1.2))
        = update_events (trace (lworld s))
          ++ concat (map (λ b, [Some b; None]) new_batches)
    end.
Proof.
  revert s. induction queue as [|entry queue IH]; intros s Hlen.
  { exists [], []. cbn. by rewrite !app_nil_r. }
  destruct entry as [|r|exp]; cbn [learner_loop].
  - exists [TEnd], []. cbn. by rewrite !app_nil_r.
  - destruct (tracker_reward (tracker s) r (step_idx s)) as [[] tr]; cbn.
    + exists [TotalReward r], []. cbn. rewrite !app_nil_r.
      repeat split; try done. by eexists.
    + destruct (IH (Learner (lworld s) (batch s) (step_idx s) tr) Hlen)
        as (popped & nb & Hq & Hst & Hf & Hm).
      exists (TotalReward r :: popped), nb. cbn [lworld batch] in *.
      split; [cbn; by f_equal|]. split; [|done].
      destruct (learner_loop queue _).1.1; cbn in Hst |- *; try done.
      * by destruct popped.
      * destruct Hst as [r' Hst]. exists r'. by destruct popped.
      * destruct Hst as [e' Hst]. exists e'. by destruct popped.
  - destruct (decide (length (batch s ++ [exp]) < BATCH_SIZE)) as [Hlt|Hge].
    + destruct (IH (Learner (lworld s) (batch s ++ [exp]) (S (step_idx s))
                      (tracker s)) Hlt)
        as (popped & nb & Hq & Hst & Hf & Hm).
      exists (TExp exp :: popped), nb. cbn [lworld batch] in *.
      split; [cbn; by f_equal|]. split.
      { destruct (learner_loop queue _).1.1; cbn in Hst |- *; try done.
        - by destruct popped.
        - destruct Hst as [r' Hst]. exists r'. by destruct popped.
        - destruct Hst as [e' Hst]. exists e'. by destruct popped. }
      split; [done|].
      unfold exps_of in *. cbn [omap list_omap].
      by rewrite <- app_assoc in Hm.
    + assert (Hfull : length (batch s ++ [exp]) = BATCH_SIZE).
      { rewrite length_app in *. cbn in *. lia. }
      pose proof (unpack_batch_adds (batch s ++ [exp]) (lworld s)) as Hun.
      destruct (unpack_batch (batch s ++ [exp]) (lworld s))
        as [[[[states_v actions_t] vals_ref_v]|] w] eqn:Eun; cbn in Hun.
      2:{ exists [TExp exp], [batch s ++ [exp]]. cbn.
          rewrite !app_nil_r. split; [done|]. split; [by eexists|].
          split; [by constructor|]. split; [done|]. split; [done|].
          exists []. split; [apply prefix_nil|]. done. }
      destruct (update_step_adds states_v actions_t vals_ref_v
                  (S (step_idx s)) w) as (tl & Hup & Htl & Hsome).
      destruct (update_step states_v actions_t vals_ref_v (S (step_idx s)) w)
        as [[[]|] w'] eqn:Eup; cbn in Hup, Hsome.
      2:{ exists [TExp exp], [batch s ++ [exp]]. cbn.
          rewrite !app_nil_r. split; [done|]. split; [by eexists|].
          split; [by constructor|]. split; [done|]. split; [done|].
          exists tl. split; [done|]. by rewrite Hup, Hun, <- app_assoc. }
      rewrite (Hsome ltac:(by eexists)) in Hup. clear tl Htl Hsome.
      assert (Hnil : length (@nil (Experience V)) < BATCH_SIZE).
      { cbn. unfold BATCH_SIZE. lia. }
      destruct (IH (Learner w' [] (S (step_idx s)) (tracker s)) Hnil)
        as (popped & nb & Hq & Hst & Hf & Hm).
      exists (TExp exp :: popped), ((batch s ++ [exp]) :: nb).
      cbn [lworld batch] in *.
      split; [cbn; by f_equal|]. split.
      { destruct (learner_loop queue _).1.1; cbn in Hst |- *; try done.
        - by destruct popped.
        - destruct Hst as [r' Hst]. exists r'. by destruct popped.
        - destruct Hst as [e' Hst]. exists e'. by destruct popped. }
      split; [by constructor|].
      assert (Hev : ∀ l, (update_events (trace w') ++ l
        = update_events (trace (lworld s))
          ++ [Some (batch s ++ [exp]); None] ++ l)).
      { intros l. by rewrite Hup, Hun, <- !app_assoc. }
      unfold exps_of in *. cbn [omap list_omap map concat].
      destruct (learner_loop queue _).1.1.
      * destruct Hm as (Hm & Hl & He). rewrite He, Hev, <- !app_assoc.
        rewrite <- Hm. done.
      * destruct Hm as (Hm & Hl & He). rewrite He, Hev, <- !app_assoc.
        rewrite <- Hm. done.
      * destruct Hm as (Hne & Hm & tl & Htl & He).
        split; [done|]. split; [by rewrite <- app_assoc, <- Hm|].
        exists tl. split; [done|]. rewrite He, Hev.
        rewrite (removelast_app [Some (batch s ++ [exp]); None]).
        -- by rewrite <- !app_assoc.
        -- destruct nb as [|b nb]; [done|]. cbn. done.
      * destruct Hm as (Hm & Hl & He). rewrite He, Hev, <- !app_assoc.
        rewrite <- Hm. done.
Qed.

(** C7. The batch only grows by the tuples taken from the queue, one at a
    time; the update (a call of [unpack_batch] followed by one optimizer
    step) is made exactly on the batches of [BATCH_SIZE] tuples, and the
    batch is empty again after the call.  For the entries [popped] the loop
    took before it stopped: the calls of [unpack_batch] and the optimizer
    steps alternate, one step after each batch (the last step may be
    missing when an exception left the loop); the batches, one after the
    other and followed by the batch that is left, are the tuples taken, in
    order and each once; their number is the number of tuples divided by
    [BATCH_SIZE]. *)
Theorem learner_batches queue s :
  length (batch s) < BATCH_SIZE →
  ∃ popped new_batches,
    queue = popped ++ (learner_loop queue s).2 ∧
    stopped_on (learner_loop queue s).1.1 popped (learner_loop queue s).2 ∧
    Forall (λ b, length b = BATCH_SIZE) new_batches ∧
    length new_batches = length (batch s ++ exps_of popped) / BATCH_SIZE ∧
    match (learner_loop queue s).1.1 with
    | Raised =>
        new_batches ≠ [] ∧
        batch s ++ exps_of popped = concat new_batches ∧
        ∃ tl, tl `prefix_of` [None] ∧
          update_events (trace (lworld (learner_loop queue s).1.2))
          = update_events (trace (lworld s))
            ++ removelast (concat (map (λ b, [Some b; None]) new_batches))
            ++ tl
    | _ =>
        batch s ++ exps_of popped
        = concat new_batches ++ batch (learner_loop queue s).1.2 ∧
        length (batch (learner_loop queue s).1.2) < BATCH_SIZE ∧
        update_events (trace (lworld (learner_loop queue s).1.2))
        = update_events (trace (lworld s))
          ++ concat (map (λ b, [Some b; None]) new_batches)
    end.
Proof.
  intros Hlen.
  destruct (learner_loop_batches queue s Hlen)
    as (popped & nb & Hq & Hst & Hf & Hm).
  exists popped, nb. split; [done|]. split; [done|]. split; [done|].
  split; [|done].
  pose proof (length_concat_full nb Hf) as Hc.
  assert (Hdiv : ∀ r, r < BATCH_SIZE →
    length (batch s ++ exps_of popped) = BATCH_SIZE * length nb + r →
    length nb = length (batch s ++ exps_of popped) / BATCH_SIZE).
  { intros r Hr E. by apply (Nat.div_unique _ _ _ r). }
  destruct (learner_loop queue s).1.1.
  - destruct Hm as (Hm & Hl & _). apply (Hdiv _ Hl).
    by rewrite Hm, length_app, Hc.
  - destruct Hm as (Hm & Hl & _). apply (Hdiv _ Hl).
    by rewrite Hm, length_app, Hc.
  - destruct Hm as (_ & Hm & _). apply (Hdiv 0); [unfold BATCH_SIZE; lia|].
    rewrite Hm, Hc. lia.
  - destruct Hm as (Hm & Hl & _). apply (Hdiv _ Hl).
    by rewrite Hm, length_app, Hc.
Qed.

(** C3, as the code has it. The loop stops at the first end marker: when it
    stops on an end marker, no other end marker was taken from the queue
    before it, and whatever follows it is never taken; and an end marker
    that arrives while the loop is running stops it, whatever the number
    of actors. *)
Theorem learner_stops_at_first_end :
  (∀ queue s s' rest,
     learner_loop queue s = (StoppedByEnd, s', rest) →
     ∃ popped, queue = popped ++ TEnd :: rest ∧ ends_of popped = 0 ∧
               learner_loop popped s = (Waiting, s', [])) ∧
  (∀ popped s s' rest,
     learner_loop popped s = (Waiting, s', []) →
     learner_loop (popped ++ TEnd :: rest) s = (StoppedByEnd, s', rest)).
Proof.
  split.
  - intros queue. induction queue as [|entry queue IH]; intros s s' rest E.
    { done. }
    destruct entry as [|r|exp]; cbn [learner_loop] in E.
    + injection E as <- <-. by exists [].
    + destruct (tracker_reward (tracker s) r (step_idx s)) as [[] tr] eqn:Et;
        cbn in E; [done|].
      destruct (IH _ _ _ E) as (popped & -> & He & Hp).
      exists (TotalReward r :: popped). split; [done|]. split; [done|].
      cbn [learner_loop]. by rewrite Et.
    + destruct (decide (length (batch s ++ [exp]) < BATCH_SIZE)) as [Hlt|Hge]
        eqn:Ed.
      * destruct (IH _ _ _ E) as (popped & -> & He & Hp).
        exists (TExp exp :: popped). split; [done|]. split; [done|].
        cbn [learner_loop]. by rewrite Ed.
      * destruct (unpack_batch _ _) as [[[[st ac] vr]|] w] eqn:Eun; [|done].
        destruct (update_step _ _ _ _ _) as [[[]|] w'] eqn:Eup; [|done].
        destruct (IH _ _ _ E) as (popped & -> & He & Hp).
        exists (TExp exp :: popped). split; [done|]. split; [done|].
        cbn [learner_loop]. by rewrite Ed, Eun, Eup.
  - intros popped. induction popped as [|entry popped IH];
      intros s s' rest E.
    { by injection E as <-. }
    destruct entry as [|r|exp]; cbn [learner_loop app] in *.
    + done.
    + destruct (tracker_reward (tracker s) r (step_idx s)) as [[] tr];
        cbn in *; [done|]. by apply IH.
    + destruct (decide (length (batch s ++ [exp]) < BATCH_SIZE));
        [by apply IH|].
      destruct (unpack_batch _ _) as [[[[st ac] vr]|] w]; [|done].
      destruct (update_step _ _ _ _ _) as [[[]|] w']; [|done].
      by apply IH.
Qed.

(** *** Broadcasting *)

Lemma mapM_Some_map {A B} (f : A → option B) (g : A → B) (l : list A) :
  Forall (λ x, f x = Some (g x)) l → mapM f l = Some (map g l).
Proof. induction 1 as [|x l E _ IH]; [done|]. cbn. by rewrite E, IH. Qed.

Lemma mapM_id_map {A B} (h : A → option B) (g : A → B) (l : list A) :
  Forall (λ x, h x = Some (g x)) l → mapM id (map h l) = Some (map g l).
Proof. induction 1 as [|x l E _ IH]; [done|]. cbn. by rewrite E, IH. Qed.

Lemma bcast_row_same {A B C} (f : A → B → C) (a : list A) (b : list B) :
  length a = length b → bcast_row f a b = Some (zip_with f a b).
Proof. intros E. unfold bcast_row. by rewrite decide_True. Qed.

Lemma bcast_row_one_l {A B C} (f : A → B → C) (x : A) (b : list B) :
  bcast_row f [x] b = Some (map (f x) b).
Proof.
  unfold bcast_row. destruct (decide _) as [E|E]; [|done].
  by destruct b as [|y [|??]].
Qed.

Lemma bcast_row_one_r {A B C} (f : A → B → C) (a : list A) (y : B) :
  bcast_row f a [y] = Some (map (λ t, f t y) a).
Proof.
  unfold bcast_row. destruct (decide _) as [E|E].
  - by destruct a as [|x [|??]].
  - by destruct a as [|x [|??]].
Qed.

(** A vector against a column: the matrix of all the pairs. *)
Lemma bcast_mat_row_col (f : V → V → V) (ref vs : list V) :
  bcast_mat f [ref] (map (λ v, [v]) vs)
  = Some (map (λ v, map (λ r, f r v) ref) vs).
Proof.
  unfold bcast_mat. rewrite bcast_row_one_l. cbn.
  rewrite map_map. apply mapM_id_map, Forall_forall. intros v _.
  cbn. apply bcast_row_one_r.
Qed.

(** A matrix against a vector of the length of its rows: every row is
    combined with the vector. *)
Lemma bcast_mat_mat_row (f : V → V → V) (m : list (list V)) (v : list V) :
  Forall (λ row, length row = length v) m →
  bcast_mat f m [v] = Some (map (λ row, zip_with f row v) m).
Proof.
  intros Hm. unfold bcast_mat. rewrite bcast_row_one_r. cbn.
  apply mapM_id_map. eapply Forall_impl; [exact Hm|].
  intros row E. cbn. by apply bcast_row_same.
Qed.

(** Two matrices of the same shape. *)
Lemma bcast_mat_same (f : V → V → V) (a b : list (list V)) :
  Forall2 (λ ra rb, length ra = length rb) a b →
  bcast_mat f a b = Some (zip_with (zip_with f) a b).
Proof.
  intros Hab. unfold bcast_mat.
  rewrite bcast_row_same by (by eapply Forall2_length). cbn.
  induction Hab as [|ra rb a b E _ IH]; [done|].
  cbn. rewrite bcast_row_same by done. cbn. by rewrite IH.
Qed.

(** [t[range(n), cols]] on a matrix of [n] rows. *)
Lemma index_pairs_rows (pre m : list (list V)) (cols : list nat) :
  Forall2 (λ row a, a < length row) m cols →
  mapM (λ p : nat * nat, (pre ++ m) !! p.1 ≫= (.!! p.2))
    (zip_with pair (seq (length pre) (length m)) cols)
  = Some (zip_with (λ row a, default (lit 0) (row !! a)) m cols).
Proof.
  intros Hm. revert pre.
  induction Hm as [|row a m cols Ha _ IH]; intros pre; [done|].
  cbn [length seq zip_with mapM].
  specialize (IH (pre ++ [row])).
  rewrite <- app_assoc, length_app, Nat.add_1_r in IH. cbn [app length] in IH.
  cbn. rewrite list_lookup_middle by done. cbn.
  destruct (lookup_lt_is_Some_2 row a Ha) as [x Hx]. rewrite Hx. cbn.
  by rewrite IH.
Qed.

Lemma index_pairs_range (m : list (list V)) (cols : list nat) :
  Forall2 (λ row a, a < length row) m cols →
  index_pairs m (seq 0 (length m)) cols
  = Some (zip_with (λ row a, default (lit 0) (row !! a)) m cols).
Proof.
  intros Hm. unfold index_pairs.
  rewrite bcast_row_same
    by (rewrite length_seq; by eapply Forall2_length).
  cbn. apply (index_pairs_rows [] m cols Hm).
Qed.

(** *** The values of the losses *)

Opaque BATCH_SIZE.

Lemma eval_Mul lg vl (a b : node V) :
  eval lg vl (Mul a b)
  = (x ← eval lg vl a; y ← eval lg vl b; tensor_binop fmul x y).
Proof. done. Qed.

Lemma eval_Add lg vl (a b : node V) :
  eval lg vl (Add a b)
  = (x ← eval lg vl a; y ← eval lg vl b; tensor_binop fadd x y).
Proof. done. Qed.

Lemma eval_Neg_Mean_T2 lg vl (a : node V) m :
  eval lg vl a = Some (T2 m) →
  eval lg vl (Neg (Mean a)) = Some (T0 (fneg (fmean (concat m)))).
Proof. intros E. cbn [eval]. by rewrite E. Qed.

Lemma eval_adv lg (ref vs : list V) :
  eval lg (T2 (map (λ v, [v]) vs)) (adv_v ref) = Some (T2 (adv_matrix ref vs)).
Proof.
  unfold adv_v. cbn [eval mbind option_bind tensor_binop].
  by rewrite bcast_mat_row_col.
Qed.

Lemma eval_index_log_prob (lg : list (list V)) vl (actions_t : list nat) :
  length lg = BATCH_SIZE →
  Forall2 (λ row a, a < length (F_log_softmax row)) lg actions_t →
  eval (T2 lg) vl (Index log_prob_v (seq 0 BATCH_SIZE) actions_t)
  = Some (T1 (log_probs_of lg actions_t)).
Proof.
  intros Hlen Hact. unfold log_prob_v.
  cbn [eval mbind option_bind rowwise].
  rewrite <- Hlen, <- (length_map F_log_softmax lg).
  rewrite index_pairs_range by (by apply Forall2_fmap_l).
  cbn. unfold log_probs_of. by rewrite zip_with_fmap_l.
Qed.

Lemma length_log_probs_of (lg : list (list V)) (actions_t : list nat) :
  length lg = BATCH_SIZE →
  Forall2 (λ row a, a < length (F_log_softmax row)) lg actions_t →
  length (log_probs_of lg actions_t) = BATCH_SIZE.
Proof.
  intros Hlen Hact. unfold log_probs_of.
  rewrite length_zip_with, <- (Forall2_length _ _ _ Hact). lia.
Qed.

(** The policy loss: minus the mean, over all the entries of the advantage
    matrix, of the entry times the log-probability of its column. *)
Lemma eval_loss_policy (lg : list (list V)) (ref vs : list V) actions_t :
  length lg = BATCH_SIZE →
  length ref = BATCH_SIZE →
  Forall2 (λ row a, a < length (F_log_softmax row)) lg actions_t →
  eval (T2 lg) (T2 (map (λ v, [v]) vs)) (log_prob_actions_v actions_t ref)
  = Some (T2 (map (λ row, zip_with fmul row (log_probs_of lg actions_t))
                (adv_matrix ref vs))) ∧
  eval (T2 lg) (T2 (map (λ v, [v]) vs)) (loss_policy_v actions_t ref)
  = Some (T0 (policy_loss_value ref vs (log_probs_of lg actions_t))).
Proof.
  intros Hlen Href Hact.
  assert (E : eval (T2 lg) (T2 (map (λ v, [v]) vs))
                (log_prob_actions_v actions_t ref)
              = Some (T2 (map (λ row, zip_with fmul row
                                        (log_probs_of lg actions_t))
                            (adv_matrix ref vs)))).
  { unfold log_prob_actions_v.
    rewrite eval_Mul, eval_adv, eval_index_log_prob by done.
    cbn [mbind option_bind tensor_binop].
    rewrite bcast_mat_mat_row; [done|].
    unfold adv_matrix. apply Forall_map, Forall_forall. intros v _. cbn.
    by rewrite length_map, length_log_probs_of. }
  split; [done|].
  unfold loss_policy_v. by rewrite (eval_Neg_Mean_T2 _ _ _ _ E).
Qed.

(** The entropy term: [ENTROPY_BETA] times the mean over the rows of the
    sum over the actions of [softmax * log_softmax]. *)
Lemma eval_entropy_loss (lg : list (list V)) vl :
  Forall (λ row, length (F_softmax row) = length (F_log_softmax row)) lg →
  eval (T2 lg) vl entropy_loss_v = Some (T0 (entropy_loss_value lg)).
Proof.
  intros Hrows. unfold entropy_loss_v, prob_v, log_prob_v.
  cbn [eval mbind option_bind rowwise tensor_binop].
  rewrite bcast_mat_same; last first.
  { apply Forall2_fmap, Forall_Forall2_diag.
    eapply Forall_impl; [exact Hrows|]. done. }
  cbn. unfold entropy_loss_value. do 4 f_equal.
  clear. induction lg as [|row lg IH]; [done|]. cbn. by rewrite IH.
Qed.

Lemma eval_loss_value lg vl (ref : list V) mse :
  F_mse_loss vl (T1 ref) = Some mse →
  eval lg vl (loss_value_v ref) = Some (T0 mse).
Proof. intros E. unfold loss_value_v. cbn. by rewrite E. Qed.

Lemma column_of_rows (vl : list (list V)) :
  Forall (λ row, length row = 1) vl → ∃ vs, vl = map (λ v, [v]) vs.
Proof.
  induction 1 as [|row vl Hrow _ (vs & ->)]; [by exists []|].
  destruct row as [|v [|??]]; try done. by exists (v :: vs).
Qed.

Lemma read_grads_some w :
  Exists is_Some (grads w) →
  read_grads w
  = (Some (concat (omap id (grads w))),
     World (heap w) (params w) (grads w) (opt_state w) (graph_live w)
       (trace w ++ [EvReadGrads])).
Proof.
  intros Hex. unfold read_grads.
  destruct (omap id (grads w)) as [|g gs] eqn:E; [|done].
  exfalso. induction Hex as [o l [g ->]|o l _ IH]; [done|].
  cbn in E. destruct o; [done|]. by apply IH.
Qed.

(** The update step on a batch it is ready for, in full: the outcome, the
    world it leaves and everything it did, in order. *)
Lemma update_step_spec w states_v actions_t vals_ref_v k :
  update_ready w states_v actions_t vals_ref_v →
  let lg := (net (params w) states_v).1 in
  let vl := (net (params w) states_v).2 in
  let loss_policy := loss_policy_v actions_t vals_ref_v in
  let loss := loss_v vals_ref_v in
  let g1 := imap (λ i old, grad_accumulate old
                    (autograd (params w) states_v loss_policy i))
              (zero_grad (grads w)) in
  let g2 := imap (λ i old, grad_accumulate old
                    (autograd (params w) states_v loss i)) g1 in
  let clipped := clip_grad_norm g2 CLIP_GRAD in
  let stepped := adam_step (opt_state w) (params w) clipped in
  let grads_np := concat (omap id g1) in
  ∃ vs mse,
    vl = map (λ v, [v]) vs ∧
    F_mse_loss (T2 vl) (T1 vals_ref_v) = Some mse ∧
    let policy := policy_loss_value vals_ref_v vs
                    (log_probs_of lg actions_t) in
    let entropy := entropy_loss_value lg in
    update_step states_v actions_t vals_ref_v k w
    = (Some tt,
       World (heap w) stepped.1 clipped stepped.2 false
         (trace w ++
          [EvZeroGrad; EvNet states_v; EvBackward loss_policy true;
           EvReadGrads; EvBackward loss false; EvClipGradNorm CLIP_GRAD;
           EvOptimizerStep] ++
          [EvTrack "advantage" (T2 (adv_matrix vals_ref_v vs)) k;
           EvTrack "values" (T2 vl) k;
           EvTrack "batch_rewards" (T1 vals_ref_v) k;
           EvTrack "loss_entropy" (T0 entropy) k;
           EvTrack "loss_policy" (T0 policy) k;
           EvTrack "loss_value" (T0 mse) k;
           EvTrack "loss_total" (T0 (fadd (fadd entropy mse) policy)) k;
           EvTrack "grad_l2"
             (T0 (np_sqrt (fmean (map (λ g, fmul g g) grads_np)))) k;
           EvTrack "grad_max" (T0 (np_max_abs grads_np)) k;
           EvTrack "grad_var" (T0 (np_var grads_np)) k])).
Proof.
  intros [Hlen Hact Hrows Hcol Href [mse Hmse] Hgrad]. cbv zeta.
  destruct (column_of_rows _ Hcol) as [vs Hvs].
  exists vs, mse. split; [done|]. split; [done|].
  unfold update_step.
  erewrite bind_some by reflexivity.
  erewrite bind_some by reflexivity. wsimpl. cbv zeta.
  set (lg := (net (params w) states_v).1) in *.
  destruct (eval_loss_policy lg vals_ref_v vs actions_t Hlen Href Hact)
    as [Elpa Elp].
  pose proof (eval_entropy_loss lg (T2 (map (λ v, [v]) vs)) Hrows) as Eent.
  pose proof (eval_loss_value (T2 lg) _ vals_ref_v mse Hmse) as Eval.
  rewrite Hvs in *.
  rewrite Eval. erewrite bind_some by reflexivity.
  erewrite bind_some by reflexivity.
  rewrite eval_adv. erewrite bind_some by reflexivity.
  rewrite Elpa. erewrite bind_some by reflexivity.
  rewrite Elp. erewrite bind_some by reflexivity.
  erewrite bind_some by reflexivity.
  rewrite Eent. erewrite bind_some by reflexivity.
  erewrite bind_some by reflexivity. wsimpl.
  erewrite bind_some by (by apply read_grads_some). wsimpl.
  assert (Eloss : eval (T2 lg) (T2 (map (λ v, [v]) vs)) (loss_v vals_ref_v)
                  = Some (T0 (fadd (entropy_loss_value lg) mse))).
  { unfold loss_v. by rewrite eval_Add, Eent, Eval. }
  assert (Etotal : eval (T2 lg) (T2 (map (λ v, [v]) vs))
                     (loss_total_v actions_t vals_ref_v)
                   = Some (T0 (fadd (fadd (entropy_loss_value lg) mse)
                                 (policy_loss_value vals_ref_v vs
                                    (log_probs_of lg actions_t))))).
  { unfold loss_total_v. by rewrite eval_Add, Eloss, Elp. }
  rewrite Eloss.
  erewrite bind_some by reflexivity.
  erewrite bind_some by reflexivity. wsimpl.
  erewrite bind_some by reflexivity. wsimpl.
  erewrite bind_some by reflexivity. wsimpl.
  rewrite Etotal.
  erewrite bind_some by reflexivity.
  do 9 (erewrite bind_some by reflexivity; wsimpl).
  unfold track, log. wsimpl. by rewrite <- !app_assoc.
Qed.

Transparent BATCH_SIZE.

(** C2. On a full batch the update step zeroes the gradients, runs the
    network once, backpropagates the policy loss alone with the graph
    retained, reads the gradients, backpropagates the sum of the entropy
    loss and of the value loss onto them, clips the gradient norm to 0.1
    and makes one optimizer step, in this order; what follows only reports
    metrics.  The gradients read after the first pass go to the three
    gradient statistics; the parameters are stepped on the clipped sum of
    the two passes. *)
Theorem update_step_two_phase w states_v actions_t vals_ref_v k :
  update_ready w states_v actions_t vals_ref_v →
  let loss_policy := loss_policy_v actions_t vals_ref_v in
  let loss := Add entropy_loss_v (loss_value_v vals_ref_v) in
  let g1 := imap (λ i old, grad_accumulate old
                    (autograd (params w) states_v loss_policy i))
              (zero_grad (grads w)) in
  let g2 := imap (λ i old, grad_accumulate old
                    (autograd (params w) states_v loss i)) g1 in
  let grads_np := concat (omap id g1) in
  ∃ w' tracks,
    update_step states_v actions_t vals_ref_v k w = (Some tt, w') ∧
    trace w'
    = trace w ++
      [EvZeroGrad; EvNet states_v; EvBackward loss_policy true; EvReadGrads;
       EvBackward loss false; EvClipGradNorm (lit (1 # 10));
       EvOptimizerStep] ++ tracks ∧
    Forall is_track tracks ∧
    optimizer_steps (trace w') = S (optimizer_steps (trace w)) ∧
    grads w' = clip_grad_norm g2 (lit (1 # 10)) ∧
    (params w', opt_state w') = adam_step (opt_state w) (params w) (grads w') ∧
    EvTrack "grad_l2" (T0 (np_sqrt (fmean (map (λ g, fmul g g) grads_np)))) k
      ∈ tracks ∧
    EvTrack "grad_max" (T0 (np_max_abs grads_np)) k ∈ tracks ∧
    EvTrack "grad_var" (T0 (np_var grads_np)) k ∈ tracks.
Proof.
  intros Hready. cbv zeta.
  destruct (update_step_spec w states_v actions_t vals_ref_v k Hready)
    as (vs & mse & Hvs & Hmse & E). cbv zeta in E.
  eexists _, _. split; [exact E|]. wsimpl.
  split; [reflexivity|]. split; [by repeat constructor|].
  split.
  { unfold optimizer_steps. rewrite !omap_app, !length_app. cbn. lia. }
  split; [done|]. split; [by destruct (adam_step _ _ _)|].
  rewrite !elem_of_cons. tauto.
Qed.

(** C5. The entropy term is [ENTROPY_BETA] (0.01) times the mean over the
    rows of the sum over the actions of [softmax * log_softmax]; it is
    added to the value loss, and this sum is the loss of the second
    backward pass. *)
Theorem entropy_term_added w states_v actions_t vals_ref_v k :
  update_ready w states_v actions_t vals_ref_v →
  let lg := (net (params w) states_v).1 in
  let vl := (net (params w) states_v).2 in
  let entropy :=
    fmul (lit (1 # 100))
      (fmean (map (λ row, fsum (zip_with fmul (F_softmax row)
                                  (F_log_softmax row))) lg)) in
  ∃ mse,
    F_mse_loss (T2 vl) (T1 vals_ref_v) = Some mse ∧
    eval (T2 lg) (T2 vl) entropy_loss_v = Some (T0 entropy) ∧
    eval (T2 lg) (T2 vl) (Add entropy_loss_v (loss_value_v vals_ref_v))
    = Some (T0 (fadd entropy mse)) ∧
    EvBackward (Add entropy_loss_v (loss_value_v vals_ref_v)) false
      ∈ trace (update_step states_v actions_t vals_ref_v k w).2.
Proof.
  intros Hready. cbv zeta.
  destruct (update_step_spec w states_v actions_t vals_ref_v k Hready)
    as (vs & mse & Hvs & Hmse & E). cbv zeta in E.
  destruct Hready as [_ _ Hrows _ _ _ _].
  pose proof (eval_entropy_loss _ (T2 (net (params w) states_v).2) Hrows)
    as Eent.
  exists mse. split; [done|]. split; [exact Eent|]. split.
  - rewrite eval_Add, Eent.
    by rewrite (eval_loss_value _ _ _ _ Hmse).
  - rewrite E. wsimpl. rewrite !elem_of_app, !elem_of_cons.
    unfold loss_v. tauto.
Qed.

(** *** The update step reads the training state only *)

Lemma related_bind {A B} (m1 m2 : M A) (f1 f2 : A → M B) :
  related m1 m2 → (∀ a, related (f1 a) (f2 a)) →
  related (m1 ≫= f1) (m2 ≫= f2).
Proof.
  intros Hm Hf w1 w2 Hw. unfold mbind, M_bind.
  destruct (Hm w1 w2 Hw) as [Hr Hw'].
  destruct (m1 w1) as [[a1|] w1'], (m2 w2) as [[a2|] w2']; cbn in *;
    try done.
  injection Hr as <-. by apply Hf.
Qed.

Lemma related_lift_opt {A} (o : option A) : related (lift_opt o) (lift_opt o).
Proof. intros w1 w2 Hw. by destruct o. Qed.

Lemma training_state_eq w1 w2 :
  training_state w1 = training_state w2 ↔
  params w1 = params w2 ∧ opt_state w1 = opt_state w2 ∧
  grads w1 = grads w2 ∧ graph_live w1 = graph_live w2.
Proof.
  unfold training_state. split.
  - by intros [= ? ? ? ?].
  - by intros (-> & -> & -> & ->).
Qed.

Lemma related_backward x loss retain_graph :
  related (backward x loss retain_graph) (backward x loss retain_graph).
Proof.
  intros w1 w2 Hw. unfold backward.
  apply training_state_eq in Hw as (Hp & Ho & Hg & Hl). rewrite Hl.
  destruct (graph_live w2) eqn:E2; cbn; (split; [done|]);
    apply training_state_eq; cbn; by rewrite ?Hp, ?Ho, ?Hg, ?Hl, ?E2.
Qed.

Lemma related_read_grads : related read_grads read_grads.
Proof.
  intros w1 w2 Hw. unfold read_grads.
  apply training_state_eq in Hw as (Hp & Ho & Hg & Hl). rewrite Hg.
  destruct (omap id (grads w2)); cbn; (split; [done|]);
    apply training_state_eq; cbn; by rewrite ?Hp, ?Ho, ?Hg, ?Hl.
Qed.

Lemma related_clip_grad max_norm :
  related (clip_grad max_norm) (clip_grad max_norm).
Proof.
  intros w1 w2 Hw.
  apply training_state_eq in Hw as (Hp & Ho & Hg & Hl). split; [done|].
  apply training_state_eq; cbn; by rewrite ?Hp, ?Ho, ?Hg, ?Hl.
Qed.

Lemma related_optimizer_step : related optimizer_step optimizer_step.
Proof.
  intros w1 w2 Hw.
  apply training_state_eq in Hw as (Hp & Ho & Hg & Hl). split; [done|].
  apply training_state_eq; cbn; by rewrite ?Hp, ?Ho, ?Hg, ?Hl.
Qed.

(** The metrics may be reported under different step indices. *)
Lemma related_track name data k1 k2 :
  related (track name data k1) (track name data k2).
Proof.
  intros w1 w2 Hw. split; [done|].
  apply training_state_eq in Hw. by apply training_state_eq.
Qed.

Ltac related_step :=
  cbv beta zeta;
  lazymatch goal with
  | |- related (lift_opt _) _ => apply related_lift_opt
  | |- related (backward _ _ _) _ => apply related_backward
  | |- related read_grads _ => apply related_read_grads
  | |- related (clip_grad _) _ => apply related_clip_grad
  | |- related optimizer_step _ => apply related_optimizer_step
  | |- related (track _ _ _) _ => apply related_track
  | |- related (mbind _ _) _ => apply related_bind; [|intros ?]
  end.

(** X19. The update step reads the parameters and the state of the
    optimizer, and of the gradients only on which parameters they are and
    their shapes: from two worlds that agree on these, the same inputs give
    the same outcome, the same parameters, the same optimizer state and the
    same gradients, whatever the values of the gradients that earlier steps
    have left, the arrays of the heap, the history and the step index
    are. *)
Theorem update_step_ignores_stale_state w1 w2 states_v actions_t vals_ref_v k1 k2 :
  same_training_state w1 w2 →
  (update_step states_v actions_t vals_ref_v k1 w1).1
  = (update_step states_v actions_t vals_ref_v k2 w2).1 ∧
  params (update_step states_v actions_t vals_ref_v k1 w1).2
  = params (update_step states_v actions_t vals_ref_v k2 w2).2 ∧
  opt_state (update_step states_v actions_t vals_ref_v k1 w1).2
  = opt_state (update_step states_v actions_t vals_ref_v k2 w2).2 ∧
  grads (update_step states_v actions_t vals_ref_v k1 w1).2
  = grads (update_step states_v actions_t vals_ref_v k2 w2).2.
Proof.
  intros (Hp & Ho & Hg). unfold update_step.
  do 2 (erewrite (bind_some optimizer_zero_grad) by reflexivity).
  do 2 (erewrite (bind_some (net_forward false states_v)) by reflexivity).
  wsimpl. rewrite Hp. cbv zeta.
  match goal with
  | |- (?m1 ?u1).1 = (?m2 ?u2).1 ∧ _ =>
      assert (Hrel : related m1 m2) by repeat related_step;
      destruct (Hrel u1 u2) as [Hr Hw]
  end.
  { apply training_state_eq. cbn. by rewrite ?Hp, ?Ho, ?Hg. }
  split; [exact Hr|]. by apply training_state_eq in Hw as (-> & -> & -> & _).
Qed.

End Proofs.

(** ** The theorems on the rational run *)

(** A lookup in a concrete heap, by computation. *)
Ltac lookup_q := eexists; vm_compute; reflexivity.

Lemma scenario_allocated : Forall (exp_allocated heap_q) scenario_batch.
Proof.
  unfold scenario_batch.
  repeat (apply Forall_cons_2; [split; [lookup_q|first [exact I|lookup_q]]|]).
  apply Forall_nil_2.
Qed.




Lemma unpack_batch_all_terminal_witness :
  ∃ states_v w',
    unpack_batch (take 2 scenario_batch) world_q
    = (Some (states_v, [0; 1]%nat, [1; -1]%Q), w') ∧
    trace w' = [EvUnpackBatch (take 2 scenario_batch)] ∧
    net_evaluations (trace w') = [].
Proof.
  destruct (unpack_batch_all_terminal (take 2 scenario_batch) world_q)
    as (states_v & w' & E & Ht & Hn & Hexact).
  - repeat (apply Forall_cons_2; [reflexivity|]). apply Forall_nil_2.
  - repeat (apply Forall_cons_2; [lookup_q|]). apply Forall_nil_2.
  - exists states_v, w'. rewrite Hexact in E; [by auto|].
    repeat (apply Forall_cons_2; [reflexivity|]). apply Forall_nil_2.
Defined.

(** C10, as stated, fails.  One terminal tuple with the reward 0.1: the
    reference value returned is 13421773 / 2 ^ 27 = 0.100000001490116...,
    which is not the stored reward. *)
Lemma unpack_batch_all_terminal_rounds :
  Forall (λ exp, last_state exp = None) [terminal_exp (1 # 10)] ∧
  Forall (λ exp, is_Some (heap world_q !! state exp))
    [terminal_exp (1 # 10)] ∧
  (∃ states_v w',
     unpack_batch [terminal_exp (1 # 10)] world_q
     = (Some (states_v, [0]%nat, [13421773 # 134217728]%Q), w')) ∧
  ¬ (13421773 # 134217728 == 1 # 10)%Q ∧
  ¬ ∃ states_v w',
      unpack_batch [terminal_exp (1 # 10)] world_q
      = (Some (states_v, map action [terminal_exp (1 # 10)],
               map reward [terminal_exp (1 # 10)]), w').
Proof.
  assert (Ha : Forall (exp_allocated (heap world_q)) [terminal_exp (1 # 10)]).
  { apply Forall_cons_2; [split; [lookup_q|exact I]|apply Forall_nil_2]. }
  pose proof (unpack_batch_spec (λ _, 0%Q) [terminal_exp (1 # 10)] world_q
                Ha (λ H, match H eq_refl with end)) as E.
  split; [by apply Forall_cons_2|].
  split; [apply Forall_cons_2; [lookup_q|apply Forall_nil_2]|].
  split; [do 2 eexists; exact E|]. split; [by vm_compute|].
  intros (states_v & w' & E'). rewrite E in E'.
  injection E' as _ Hvals _. vm_compute in Hvals. discriminate Hvals.
Qed.

(** The actor on the script of two tuples: the first tuple, then the report
    of the two episodes and the second tuple, then the end marker. *)
Lemma data_func_puts_witness :
  data_func 5 source_q []
  = Some [TExp (terminal_exp 1); TotalReward (fmean [3; 5]%Q);
          TExp (terminal_exp 2); TEnd].
Proof.
  apply (data_func_puts 2 5 source_q
           [(terminal_exp 1, []); (terminal_exp 2, [3; 5]%Q)] []).
  - reflexivity.
  - lia.
Defined.

(** The learner on 130 tuples takes them all and waits: it has made one
    update, a call of [unpack_batch] on a batch of 128 tuples followed by
    one optimizer step, and two tuples are left in the batch. *)
Lemma learner_batches_witness :
  (learner_loop queue_130 learner_q).1.1 = Waiting ∧
  (learner_loop queue_130 learner_q).2 = [] ∧
  ∃ b,
    update_events (trace (lworld (learner_loop queue_130 learner_q).1.2))
    = [Some b; None] ∧
    length b = 128 ∧
    length (batch (learner_loop queue_130 learner_q).1.2) = 2 ∧
    exps_of queue_130 = b ++ batch (learner_loop queue_130 learner_q).1.2.
Proof.
  assert (Ho : (learner_loop queue_130 learner_q).1.1 = Waiting)
    by (vm_compute; reflexivity).
  destruct (learner_batches queue_130 learner_q)
    as (popped & nb & Hq & Hst & Hf & Hn & Hm).
  { cbn. unfold BATCH_SIZE. lia. }
  assert (Hlen : length (exps_of queue_130) = 130) by (vm_compute; reflexivity).
  change (lworld learner_q) with world_q in Hm.
  change (batch learner_q ++ exps_of popped) with (exps_of popped) in Hm, Hn.
  change (update_events (trace world_q)) with (@nil (option (list (Experience Q))))
    in Hm.
  set (r := learner_loop queue_130 learner_q) in *. clearbody r.
  rewrite Ho in Hst, Hm. unfold stopped_on in Hst.
  destruct Hm as (Hm & Hl & He).
  rewrite Hst, app_nil_r in Hq. subst popped.
  split; [exact Ho|]. split; [exact Hst|].
  rewrite Hlen in Hn. change (130 / BATCH_SIZE) with 1 in Hn.
  destruct nb as [|b [|b' nb]]; try discriminate Hn.
  exists b. cbn [map concat app] in He, Hm. rewrite (app_nil_r b) in Hm.
  apply Forall_cons in Hf as [Hb _]. split; [exact He|].
  split; [exact Hb|]. split; [|exact Hm].
  apply (f_equal length) in Hm. rewrite length_app, Hlen, Hb in Hm.
  unfold BATCH_SIZE in Hm. lia.
Defined.

(** An end marker after one tuple stops the loop; the three end markers
    behind it are left in the queue. *)
Lemma learner_stops_at_first_end_witness :
  learner_loop ([TExp (terminal_exp 1)] ++ TEnd :: [TEnd; TEnd; TEnd]) learner_q
  = (StoppedByEnd, Learner world_q [terminal_exp 1] 1 0%nat,
     [TEnd; TEnd; TEnd]).
Proof.
  apply (proj2 learner_stops_at_first_end [TExp (terminal_exp 1)] learner_q).
  reflexivity.
Defined.

(** C3, as the design document states it, fails: with four actors the loop
    stops on an end marker after having seen one end marker, not four. *)
Lemma learner_stops_before_actor_count :
  ¬ (∀ queue popped rest s',
       learner_loop queue learner_q = (StoppedByEnd, s', rest) →
       queue = popped ++ rest →
       ends_of popped = PROCESSES_COUNT).
Proof.
  intros Hclaim.
  specialize (Hclaim [TEnd; TEnd; TEnd; TEnd] [TEnd] [TEnd; TEnd; TEnd]
                learner_q eq_refl eq_refl).
  discriminate Hclaim.
Qed.

Lemma full_batch_ready :
  update_ready world_q full_states full_actions full_returns.
Proof.
  split.
  - by vm_compute.
  - apply (bool_decide_unpack _). by vm_compute.
  - apply (bool_decide_unpack _). by vm_compute.
  - apply (bool_decide_unpack _). by vm_compute.
  - by vm_compute.
  - eexists. vm_compute. reflexivity.
  - apply (bool_decide_unpack _). by vm_compute.
Qed.

(** The update step on the full batch: one optimizer step, after the two
    backward passes and the clipping. *)
Lemma update_step_two_phase_witness :
  ∃ w',
    update_step full_states full_actions full_returns 128 world_q
    = (Some tt, w') ∧
    optimizer_steps (trace w') = 1 ∧
    take 7 (trace w')
    = [EvZeroGrad; EvNet full_states;
       EvBackward (loss_policy_v full_actions full_returns) true;
       EvReadGrads;
       EvBackward (Add entropy_loss_v (loss_value_v full_returns)) false;
       EvClipGradNorm (1 # 10)%Q; EvOptimizerStep].
Proof.
  destruct (update_step_two_phase world_q full_states full_actions
              full_returns 128 full_batch_ready)
    as (w' & tracks & E & Htr & _ & Hsteps & _).
  exists w'. split; [exact E|]. split; [exact Hsteps|].
  rewrite Htr. reflexivity.
Defined.

Lemma entropy_term_added_witness :
  ∃ mse,
    eval (T2 (net (params world_q) full_states).1)
      (T2 (net (params world_q) full_states).2)
      (Add entropy_loss_v (loss_value_v full_returns))
    = Some (T0 (fadd (entropy_loss_value (net (params world_q) full_states).1)
                  mse)) ∧
    EvBackward (Add entropy_loss_v (loss_value_v full_returns)) false
      ∈ trace (update_step full_states full_actions full_returns 128
                 world_q).2.
Proof.
  destruct (entropy_term_added world_q full_states full_actions full_returns
              128 full_batch_ready)
    as (mse & _ & _ & E & Hin).
  exists mse. split; [exact E|exact Hin].
Defined.

(** Two worlds with the same parameters and optimizer state: other
    arrays, another history, another step index, and a gradient of another
    value on the first parameter. *)
Lemma update_step_ignores_stale_state_witness :
  let w1 := World heap_q [[0%Q]; [0%Q]] [Some [7%Q]; None] 0%nat false [] in
  let w2 :=
    World ∅ [[0%Q]; [0%Q]] [Some [3%Q]; None] 0%nat true [EvOptimizerStep] in
  params (update_step full_states full_actions full_returns 128 w1).2
  = params (update_step full_states full_actions full_returns 7 w2).2.
Proof.
  intros w1 w2.
  apply (update_step_ignores_stale_state w1 w2 full_states full_actions
           full_returns 128 7).
  repeat split.
Defined.

(** C4 on the full batch.  The value head gives 128 on row 0 and 0 on the
    other rows, all the returns are 0.  [vals_ref_v - value_v.detach()] is
    a vector minus a column: the advantage is a matrix of 128 rows and 128
    columns, and the policy loss is the mean over this matrix, -1/128
    here, where the loss of the design document, row by row, is -1.  No
    gradient of the policy loss reaches the value head. *)
Theorem policy_loss_on_full_batch :
  let out := net (params world_q) full_states in
  let values := map (hd 0%Q) out.2 in
  let log_probs := log_probs_of out.1 full_actions in
  ∃ code_loss,
    eval (T2 out.1) (T2 out.2) (adv_v full_returns)
    = Some (T2 (adv_matrix full_returns values)) ∧
    length (adv_matrix full_returns values) = 128 ∧
    Forall (λ row, length row = 128) (adv_matrix full_returns values) ∧
    eval (T2 out.1) (T2 out.2) (loss_policy_v full_actions full_returns)
    = Some (T0 code_loss) ∧
    (code_loss == - (1 # 128))%Q ∧
    (policy_loss_per_row full_returns values log_probs == - 1)%Q ∧
    flows_to_value (loss_policy_v full_actions full_returns) = false.
Proof.
  cbv zeta. eexists. split; [by vm_compute|].
  split; [by vm_compute|].
  split; [apply (bool_decide_unpack _); by vm_compute|].
  split; [vm_compute; reflexivity|].
  split; [by vm_compute|]. split; by vm_compute.
Qed.

(** * More properties of the code *)

Section More.
Context {V : Type} `{Scalar V} `{Torch V} `{Ptan V}.
Implicit Types (w : world).

Ltac wsimpl :=
  cbn [heap set_heap params grads opt_state graph_live trace fst snd] in *.

Lemma lift_opt_some {A} (o : option A) w a w' :
  lift_opt o w = (Some a, w') → o = Some a ∧ w' = w.
Proof. unfold lift_opt, mret, M_ret, raise. destruct o; naive_solver. Qed.

Lemma lift_opt_bind {A B} (o : option A) (f : A → M B) w :
  (lift_opt o ≫= f) w
  = match o with Some a => f a w | None => (None, w) end.
Proof. by destruct o. Qed.

(** *** [unpack_batch]: what it leaves alone *)

Lemma keeps_training_state_iadd l idxs b :
  preserves training_state (ndarray_iadd_at l idxs b).
Proof.
  unfold ndarray_iadd_at.
  repeat (apply preserves_bind; [|intros ?]);
    try apply preserves_ndarray_get; try apply preserves_lift_opt.
  intros w. unfold ndarray_set. by destruct (heap w !! l).
Qed.

(** X1. [unpack_batch] reads the network and never trains it: whatever the
    batch and the outcome, the parameters, the gradients, the state of the
    optimizer and the graph are after the call what they were before. *)
Theorem unpack_batch_keeps_training_state (batch : list (Experience V)) w :
  training_state (unpack_batch batch w).2 = training_state w.
Proof.
  revert w. change (preserves training_state (unpack_batch batch)).
  unfold unpack_batch. cbv zeta.
  apply preserves_bind; [done|intros _].
  apply preserves_bind; [apply preserves_mapM_ndarray_get|intros states_v].
  apply preserves_bind; [done|intros l].
  apply preserves_bind; [|intros _].
  - destruct (acc_not_done_idx _); [done|].
    apply preserves_bind; [apply preserves_mapM_ndarray_get|intros obs].
    apply preserves_bind; [done|intros out].
    apply preserves_bind; [apply preserves_lift_opt|intros vals].
    apply keeps_training_state_iadd.
  - apply preserves_bind; [apply preserves_ndarray_get|done].
Qed.

(** *** [unpack_batch]: what a call that returns has done *)

Lemma bind_some_inv {A B} (m : M A) (f : A → M B) w b w' :
  (m ≫= f) w = (Some b, w') →
  ∃ a w1, m w = (Some a, w1) ∧ f a w1 = (Some b, w').
Proof.
  unfold mbind, M_bind. destruct (m w) as [[a|] w1]; [eauto|done].
Qed.

Lemma ndarray_get_some l w r w' :
  ndarray_get l w = (Some r, w') → heap w !! l = Some r ∧ w' = w.
Proof. unfold ndarray_get. destruct (heap w !! l); naive_solver. Qed.

Lemma mapM_ndarray_get_some ls w r w' :
  mapM ndarray_get ls w = (Some r, w') →
  w' = w ∧ r = map (λ l, heap w !!! l) ls ∧
  Forall (λ l, is_Some (heap w !! l)) ls.
Proof.
  revert r w'. induction ls as [|l ls IH]; intros r w' E.
  - cbn in E. unfold mret, M_ret in E. by injection E as <- <-.
  - cbn [mapM] in E.
    apply bind_some_inv in E as (d & w1 & E1 & E).
    apply ndarray_get_some in E1 as [Hd ->].
    apply bind_some_inv in E as (k & w2 & E2 & E).
    apply IH in E2 as (-> & -> & Hls).
    unfold mret, M_ret in E. injection E as <- <-.
    split; [done|]. split.
    + cbn. by rewrite (lookup_total_correct _ _ _ Hd).
    + apply Forall_cons_2; [by eexists|done].
Qed.

Lemma scatter_length (a : list V) idxs vals a' :
  scatter a idxs vals = Some a' → length a' = length a.
Proof.
  revert a vals. induction idxs as [|i idxs IH]; intros a vals E.
  - cbn in E. by injection E as <-.
  - destruct vals as [|v vals]; cbn in E; [by injection E as <-|].
    destruct (decide (i < length a)); [|done].
    apply IH in E. by rewrite length_insert in E.
Qed.

Lemma scatter_other (a : list V) idxs vals a' (i : nat) :
  scatter a idxs vals = Some a' → i ∉ idxs → a' !! i = a !! i.
Proof.
  revert a vals. induction idxs as [|j idxs IH]; intros a vals E Hi.
  - cbn in E. by injection E as <-.
  - destruct vals as [|v vals]; cbn in E; [by injection E as <-|].
    destruct (decide (j < length a)); [|done].
    apply not_elem_of_cons in Hi as [Hij Hi].
    rewrite (IH _ _ E Hi). by apply list_lookup_insert_ne.
Qed.

Lemma ndarray_iadd_at_some_inv l idxs b w w' :
  ndarray_iadd_at l idxs b w = (Some tt, w') →
  ∃ a tmp' a',
    heap w !! l = Some a ∧ scatter a idxs tmp' = Some a' ∧
    heap w' = <[l := a']> (heap w).
Proof.
  unfold ndarray_iadd_at. intros E.
  apply bind_some_inv in E as (a & w1 & E1 & E).
  apply ndarray_get_some in E1 as [Ha ->].
  apply bind_some_inv in E as (tmp & w1 & E1 & E).
  apply lift_opt_some in E1 as [_ ->].
  apply bind_some_inv in E as (tmp' & w1 & E1 & E).
  apply lift_opt_some in E1 as [_ ->].
  apply bind_some_inv in E as (a' & w1 & E1 & E).
  apply lift_opt_some in E1 as [Hs ->].
  exists a, tmp', a'. split; [done|]. split; [done|].
  unfold ndarray_set in E. rewrite Ha in E. by injection E as <-.
Qed.

Lemma not_done_from_elem idx (batch : list (Experience V)) (i : nat) :
  i ∈ not_done_from idx batch ↔
  ∃ exp, idx ≤ i ∧ batch !! (i - idx) = Some exp ∧ is_Some (last_state exp).
Proof.
  revert idx. induction batch as [|e batch IH]; intros idx; cbn.
  - split; [by intros ?%elem_of_nil|by intros (? & ? & ? & ?)].
  - assert (Hrest : i ∈ not_done_from (S idx) batch ↔
      ∃ exp, idx < i ∧ (e :: batch) !! (i - idx) = Some exp ∧
             is_Some (last_state exp)).
    { rewrite IH. split.
      - intros (exp & Hle & Hl & Hs). exists exp. split; [lia|].
        split; [|done].
        replace (i - idx) with (S (i - S idx)) by lia. done.
      - intros (exp & Hle & Hl & Hs). exists exp. split; [lia|].
        split; [|done].
        replace (i - idx) with (S (i - S idx)) in Hl by lia. done. }
    destruct (last_state e) as [l|] eqn:El.
    + rewrite elem_of_cons, Hrest. split.
      * intros [->|(exp & Hle & Hl & Hs)].
        -- exists e. rewrite Nat.sub_diag. split; [lia|].
           split; [done|]. rewrite El. by eexists.
        -- exists exp. split; [lia|done].
      * intros (exp & Hle & Hl & Hs).
        destruct (decide (i = idx)) as [->|Hne]; [by left|right].
        exists exp. split; [lia|done].
    + rewrite Hrest. split.
      * intros (exp & Hle & Hl & Hs). exists exp. split; [lia|done].
      * intros (exp & Hle & Hl & Hs). exists exp. split; [|done].
        destruct (decide (i = idx)) as [->|Hne]; [|lia].
        rewrite Nat.sub_diag in Hl. injection Hl as <-.
        rewrite El in Hs. by destruct Hs.
Qed.

(** What a call of [unpack_batch] that returns has read and written. *)
Lemma unpack_batch_some_inv batch w states_v actions_t vals w' :
  unpack_batch batch w = (Some (states_v, actions_t, vals), w') →
  Forall (λ exp, is_Some (heap w !! state exp)) batch ∧
  states_v = map (λ exp, heap w !!! state exp) batch ∧
  actions_t = map action batch ∧
  ∃ tmp',
    scatter (map float32_reward batch) (not_done_from 0 batch) tmp'
    = Some vals.
Proof.
  unfold unpack_batch. intros E.
  destruct (unpack_loop_spec 0 batch unpack_acc_init)
    as (Est & Eac & Erw & End & Els).
  cbn [unpack_acc_init acc_states acc_actions acc_rewards acc_not_done_idx
       acc_last_states app] in *.
  erewrite bind_some in E by reflexivity. cbv zeta in E.
  rewrite Est, Eac, Erw, End, (map_map reward to_float32) in E.
  change (map (λ exp, to_float32 (reward exp)) batch)
    with (map float32_reward batch) in E.
  apply bind_some_inv in E as (st & w1 & E1 & E).
  apply mapM_ndarray_get_some in E1 as (-> & -> & Hst). wsimpl.
  erewrite bind_some in E by reflexivity.
  apply bind_some_inv in E as ([] & w2 & E2 & E).
  apply bind_some_inv in E as (r & w3 & E3 & E).
  apply ndarray_get_some in E3 as [Hr ->].
  unfold mret, M_ret in E. injection E as <- <- <- <-.
  split; [by rewrite Forall_map in Hst|].
  split; [by rewrite map_map|]. split; [done|].
  destruct (not_done_from 0 batch) as [|i idxs] eqn:Eidx.
  - injection E2 as <-. wsimpl. rewrite lookup_insert_eq in Hr.
    injection Hr as <-. by exists [].
  - apply bind_some_inv in E2 as (obs & w3 & E3 & E2).
    apply mapM_ndarray_get_some in E3 as (-> & _ & _).
    erewrite bind_some in E2 by reflexivity.
    apply bind_some_inv in E2 as (lv & w3 & E3 & E2).
    apply lift_opt_some in E3 as [_ ->].
    apply ndarray_iadd_at_some_inv in E2 as (a & tmp' & a' & Ha & Hs & Hw2).
    wsimpl. rewrite lookup_insert_eq in Ha. injection Ha as <-.
    rewrite Hw2, lookup_insert_eq in Hr. injection Hr as <-.
    by exists tmp'.
Qed.

(** X2. When [unpack_batch] returns, its three outputs are aligned with the
    batch, whatever the network computes: the observation of each tuple's
    state, each tuple's action and one reference value per tuple, in the
    order of the batch. *)
Theorem unpack_batch_aligned batch w states_v actions_t vals w' :
  unpack_batch batch w = (Some (states_v, actions_t, vals), w') →
  states_v = map (λ exp, heap w !!! state exp) batch ∧
  actions_t = map action batch ∧
  length vals = length batch.
Proof.
  intros E. apply unpack_batch_some_inv in E as (_ & -> & -> & tmp' & Hs).
  split; [done|]. split; [done|].
  apply scatter_length in Hs. by rewrite length_map in Hs.
Qed.

(** X3. When [unpack_batch] returns, the reference value of a tuple without
    a last state is the reward of the tuple converted to float32: the
    outputs of the network, whatever their values and their shape, only
    reach the tuples with a last state. *)
Theorem unpack_batch_terminal_reward batch w states_v actions_t vals w'
    (i : nat) exp :
  unpack_batch batch w = (Some (states_v, actions_t, vals), w') →
  batch !! i = Some exp → last_state exp = None →
  vals !! i = Some (to_float32 (reward exp)).
Proof.
  intros E Hi Hl. apply unpack_batch_some_inv in E as (_ & _ & _ & tmp' & Hs).
  rewrite (scatter_other _ _ _ _ i Hs).
  - by rewrite list_lookup_fmap, Hi.
  - rewrite not_done_from_elem, Nat.sub_0_r. intros (exp' & _ & Hi' & Hs').
    rewrite Hi in Hi'. injection Hi' as <-. rewrite Hl in Hs'.
    by destruct Hs'.
Qed.

(** *** [unpack_batch]: a value head of the wrong shape *)

Lemma iadd_bcast_None (tmp b : list V) :
  length b ≠ length tmp → length b ≠ 1 → iadd_bcast tmp b = None.
Proof.
  intros Hne Hone. unfold iadd_bcast.
  destruct (decide (length b = length tmp)); [done|].
  by destruct b as [|x [|y b]].
Qed.

(** X4. When the batch has last states and the value head returns, for
    their observations, neither one row per last state nor a single row,
    the in-place addition of the bootstrap terms cannot broadcast and
    [unpack_batch] raises. *)
Theorem unpack_batch_value_rows_mismatch batch w :
  Forall (exp_allocated (heap w)) batch →
  not_done_from 0 batch ≠ [] →
  length (net (params w) (last_observations (heap w) batch)).2
  ≠ length (not_done_from 0 batch) →
  length (net (params w) (last_observations (heap w) batch)).2 ≠ 1 →
  (unpack_batch batch w).1 = None.
Proof.
  intros Halloc Hidx Hrows Hone. unfold unpack_batch.
  destruct (unpack_loop_spec 0 batch unpack_acc_init)
    as (E1 & E2 & E3 & E4 & E5).
  cbn [unpack_acc_init acc_states acc_actions acc_rewards acc_not_done_idx
       acc_last_states app] in *.
  erewrite bind_some by reflexivity. cbv zeta.
  rewrite E1, E2, E3, E4, E5, (map_map reward to_float32).
  change (map (λ exp, to_float32 (reward exp)) batch)
    with (map float32_reward batch).
  erewrite bind_some; last first.
  { apply mapM_ndarray_get. cbn. apply Forall_map.
    eapply Forall_impl; [exact Halloc|]. by intros exp [? _]. }
  erewrite bind_some by reflexivity. wsimpl.
  set (l := fresh (dom (heap w))).
  assert (Hfresh : heap w !! l = None).
  { apply not_elem_of_dom. apply is_fresh. }
  destruct (not_done_from 0 batch) as [|i idxs] eqn:Eidx; [done|].
  rewrite <- Eidx in *. clear Hidx.
  erewrite bind_none; [reflexivity|].
  erewrite bind_some; last first.
  { apply mapM_ndarray_get. cbn. apply Forall_forall. intros l' Hl'.
    apply list_elem_of_omap in Hl' as (exp & Hexp & Hl').
    rewrite Forall_forall in Halloc. destruct (Halloc _ Hexp) as [_ Hls].
    rewrite Hl' in Hls. destruct Hls as [d Hd].
    rewrite lookup_insert_ne by congruence. eauto. }
  assert (Hobs : map (λ l', <[l := map float32_reward batch]> (heap w) !!! l')
                   (omap last_state batch)
                 = last_observations (heap w) batch).
  { unfold last_observations. apply map_ext_in. intros l' Hl'.
    apply list_elem_of_In, list_elem_of_omap in Hl' as (exp & Hexp & Hl').
    rewrite Forall_forall in Halloc. destruct (Halloc _ Hexp) as [_ Hls].
    rewrite Hl' in Hls. destruct Hls as [d Hd].
    unfold lookup_total, map_lookup_total.
    rewrite lookup_insert_ne by congruence. done. }
  wsimpl. rewrite Hobs.
  erewrite bind_some by reflexivity. wsimpl.
  rewrite lift_opt_bind.
  destruct (mapM (λ row : list V, row !! 0%nat)
              (net (params w) (last_observations (heap w) batch)).2)
    as [lv|] eqn:Elv; [|reflexivity].
  apply length_mapM in Elv.
  unfold ndarray_iadd_at.
  erewrite bind_some; last first.
  { unfold ndarray_get. wsimpl. by rewrite lookup_insert_eq. }
  pose proof (gather_not_done [] batch) as Hg. cbn [app length] in Hg.
  rewrite lift_opt_bind, Hg, lift_opt_bind.
  apply length_mapM in Hg.
  rewrite iadd_bcast_None; [reflexivity| |];
    rewrite length_map; [rewrite <- Hg|]; congruence.
Qed.

(** *** [unpack_batch]: the network is evaluated at most once *)

Lemma bind_inv_eq {A B} (m : M A) (f : A → M B) w r w' :
  (m ≫= f) w = (r, w') →
  (∃ a w1, m w = (Some a, w1) ∧ f a w1 = (r, w')) ∨
  (m w = (None, w') ∧ r = None).
Proof.
  unfold mbind, M_bind. destruct (m w) as [[a|] w1]; [eauto|].
  intros [= <- <-]. by right.
Qed.

(** The bootstrap of the reference values: one evaluation of the network,
    unless reading the last states raises before it. *)
Lemma bootstrap_trace l idxs locs w (r : option unit) w' :
  (last_states_v ← mapM ndarray_get locs;
   out ← net_forward true last_states_v;
   last_vals_np ← lift_opt (mapM (λ row : list V, row !! 0%nat) out.2);
   ndarray_iadd_at l idxs (map (fmul (fpow GAMMA REWARD_STEPS)) last_vals_np))
    w = (r, w') →
  (r = None ∧ trace w' = trace w) ∨ ∃ x, trace w' = trace w ++ [EvNet x].
Proof.
  intros E.
  apply bind_inv_eq in E as [(obs & w1 & E1 & E)|[E1 ->]];
    apply mapM_ndarray_get_inv in E1 as ->; [|by left].
  right. exists obs. erewrite bind_some in E by reflexivity.
  match type of E with
  | (?m ≫= ?f) ?w2 = _ =>
      assert (Hp : preserves (λ w, id (trace w)) (m ≫= f));
      [|pose proof (f_equal (λ p, trace p.2) E) as Et; cbn beta in Et;
        unfold preserves, id in Hp; rewrite Hp in Et; symmetry; exact Et]
  end.
  apply preserves_bind; [apply preserves_lift_opt|intros lv].
  apply (preserves_ndarray_iadd_at id).
Qed.

(** The events of a call of [unpack_batch]: its entry, then at most one
    evaluation of the network. *)
Lemma unpack_batch_trace batch w r w' :
  unpack_batch batch w = (r, w') →
  ∃ tl, trace w' = trace w ++ EvUnpackBatch batch :: tl ∧
    match not_done_from 0 batch, r with
    | [], _ => tl = []
    | _ :: _, Some _ => ∃ x, tl = [EvNet x]
    | _ :: _, None => tl = [] ∨ ∃ x, tl = [EvNet x]
    end.
Proof.
  unfold unpack_batch. intros E.
  destruct (unpack_loop_spec 0 batch unpack_acc_init)
    as (Est & Eac & Erw & End & Els).
  cbn [unpack_acc_init acc_states acc_actions acc_rewards acc_not_done_idx
       acc_last_states app] in *.
  erewrite bind_some in E by reflexivity. cbv zeta in E.
  rewrite End in E.
  apply bind_inv_eq in E as [(st & w1 & E1 & E)|[E1 ->]];
    pose proof (mapM_ndarray_get_inv _ _ _ _ E1) as ->; wsimpl.
  2:{ exists []. split; [done|].
      destruct (not_done_from 0 batch); [done|by left]. }
  clear E1. erewrite bind_some in E by reflexivity.
  set (l := fresh _) in E. set (w2 := set_heap _ _) in E.
  assert (Hw2 : trace w2 = trace w ++ [EvUnpackBatch batch]) by done.
  clearbody w2.
  assert (Hrest : ∀ w3 r' w'',
    (ndarray_get l ≫= λ ref_vals_v : list V,
       mret (st, acc_actions (unpack_loop 0 batch unpack_acc_init),
             ref_vals_v)) w3 = (r', w'') → w'' = w3).
  { intros w3 r' w'' E3.
    apply bind_inv_eq in E3 as [(rv & w4 & E4 & E3)|[E4 _]];
      apply ndarray_get_inv in E4 as ->; [|done].
    unfold mret, M_ret in E3. by injection E3 as _ <-. }
  destruct (not_done_from 0 batch) as [|i idxs].
  { erewrite bind_some in E by reflexivity.
    apply Hrest in E as ->. exists []. by rewrite Hw2. }
  apply bind_inv_eq in E as [([] & w3 & E3 & E)|[E3 ->]].
  - apply Hrest in E as ->.
    apply bootstrap_trace in E3 as [[? _]|[x Hx]]; [done|].
    exists [EvNet x]. rewrite Hx, Hw2, <- app_assoc. split; [done|].
    destruct r; [by eexists|right; by eexists].
  - apply bootstrap_trace in E3 as [[_ Hx]|[x Hx]].
    + exists []. rewrite Hx, Hw2. split; [done|by left].
    + exists [EvNet x]. rewrite Hx, Hw2, <- app_assoc. split; [done|].
      right; by eexists.
Qed.

(** X5. A call of [unpack_batch] evaluates the network at most once,
    whether it returns or raises: never when no tuple of the batch has a
    last state, and exactly once when it returns on a batch with a last
    state. *)
Theorem unpack_batch_one_evaluation batch w :
  ∃ evs,
    net_evaluations (trace (unpack_batch batch w).2)
    = net_evaluations (trace w) ++ evs ∧
    length evs ≤ 1 ∧
    match not_done_from 0 batch, (unpack_batch batch w).1 with
    | [], _ => evs = []
    | _ :: _, Some _ => length evs = 1
    | _ :: _, None => True
    end.
Proof.
  destruct (unpack_batch batch w) as [r w'] eqn:E. cbn [fst snd].
  apply unpack_batch_trace in E as (tl & -> & Htl).
  unfold net_evaluations. rewrite omap_app. cbn [omap list_omap].
  exists (omap (λ ev, match ev with EvNet x => Some x | _ => None end) tl).
  split; [done|].
  destruct (not_done_from 0 batch) as [|i idxs].
  { subst tl. cbn. split; [lia|done]. }
  destruct r as [r|].
  - destruct Htl as [x ->]. cbn. split; [lia|done].
  - destruct Htl as [->|[x ->]]; cbn; split; first [lia|done].
Qed.

(** *** The learner loop *)

(** X6. The learner loop is resumable: running it over [q1 ++ q2] is
    running it over [q1] and, if that run only ends for lack of entries,
    going on over [q2] from the state it reached; a run that stops within
    [q1] leaves all of [q2] in the queue. *)
Theorem learner_loop_app (q1 q2 : list (train_entry V)) (s : learner) :
  learner_loop (q1 ++ q2) s
  = match learner_loop q1 s with
    | (Waiting, s1, _) => learner_loop q2 s1
    | (o, s1, rest) => (o, s1, rest ++ q2)
    end.
Proof.
  revert s. induction q1 as [|e q1 IH]; intros s; [done|].
  destruct e as [|r|exp]; cbn [learner_loop app].
  - done.
  - destruct (tracker_reward (tracker s) r (step_idx s)).1; [done|apply IH].
  - destruct (decide (length (batch s ++ [exp]) < BATCH_SIZE)); [apply IH|].
    destruct (unpack_batch (batch s ++ [exp]) (lworld s))
      as [[[[states_v actions_t] vals_ref_v]|] w1]; [|done].
    destruct (update_step states_v actions_t vals_ref_v (S (step_idx s)) w1)
      as [[[]|] w2]; [apply IH|done].
Qed.

(** X7. [step_idx] counts the experience tuples taken from the queue, and
    nothing else: reward reports and end markers leave it as it is, and so
    does an exception in the update. *)
Theorem learner_counts_tuples (queue : list (train_entry V)) (s : learner) :
  ∃ popped,
    queue = popped ++ (learner_loop queue s).2 ∧
    step_idx (learner_loop queue s).1.2
    = step_idx s + length (exps_of popped).
Proof.
  revert s. induction queue as [|e queue IH]; intros s.
  { exists []. cbn. split; [done|lia]. }
  destruct e as [|r|exp]; cbn [learner_loop].
  - exists [TEnd]. cbn. split; [done|lia].
  - destruct (tracker_reward (tracker s) r (step_idx s)).1.
    + exists [TotalReward r]. cbn. split; [done|lia].
    + destruct (IH (Learner (lworld s) (batch s) (step_idx s)
                      (tracker_reward (tracker s) r (step_idx s)).2))
        as (popped & Hq & Hk).
      exists (TotalReward r :: popped). split; [by rewrite Hq at 1|].
      rewrite Hk. done.
  - assert (Hgo : ∀ s1, step_idx s1 = S (step_idx s) →
      ∃ popped,
        TExp exp :: queue = popped ++ (learner_loop queue s1).2 ∧
        step_idx (learner_loop queue s1).1.2
        = step_idx s + length (exps_of popped)).
    { intros s1 Hs1. destruct (IH s1) as (popped & Hq & Hk).
      exists (TExp exp :: popped). split; [by rewrite Hq at 1|].
      rewrite Hk, Hs1. unfold exps_of. cbn. lia. }
    assert (Hstop :
      ∃ popped,
        TExp exp :: queue = popped ++ queue ∧
        S (step_idx s) = step_idx s + length (exps_of popped)).
    { exists [TExp exp]. cbn. split; [done|lia]. }
    destruct (decide (length (batch s ++ [exp]) < BATCH_SIZE));
      [by apply Hgo|].
    destruct (unpack_batch (batch s ++ [exp]) (lworld s))
      as [[[[states_v actions_t] vals_ref_v]|] w1]; [|exact Hstop].
    destruct (update_step states_v actions_t vals_ref_v (S (step_idx s)) w1)
      as [[[]|] w2]; [by apply Hgo|exact Hstop].
Qed.

(** X8. A reward report that does not stop the loop has no effect on
    training: unless the loop stops on a report, it ends the same way, in
    the same world, with the same batch and the same [step_idx] as on the
    queue with the reports taken out, whatever the state of the tracker. *)
Theorem learner_ignores_reports (queue : list (train_entry V)) (s : learner)
    (tr : Tracker) :
  (learner_loop queue s).1.1 ≠ StoppedByReward →
  let s0 := Learner (lworld s) (batch s) (step_idx s) tr in
  (learner_loop (without_reports queue) s0).1.1 = (learner_loop queue s).1.1 ∧
  lworld (learner_loop (without_reports queue) s0).1.2
  = lworld (learner_loop queue s).1.2 ∧
  batch (learner_loop (without_reports queue) s0).1.2
  = batch (learner_loop queue s).1.2 ∧
  step_idx (learner_loop (without_reports queue) s0).1.2
  = step_idx (learner_loop queue s).1.2 ∧
  (learner_loop (without_reports queue) s0).2
  = without_reports (learner_loop queue s).2.
Proof.
  cbv zeta. revert s tr. induction queue as [|e queue IH]; intros s tr Hne.
  { done. }
  destruct e as [|r|exp]; unfold without_reports in *;
    cbn [learner_loop omap list_omap] in *.
  - done.
  - destruct (tracker_reward (tracker s) r (step_idx s)).1; [done|].
    apply (IH (Learner (lworld s) (batch s) (step_idx s)
                 (tracker_reward (tracker s) r (step_idx s)).2) tr Hne).
  - cbn [lworld batch step_idx tracker] in *.
    destruct (decide (length (batch s ++ [exp]) < BATCH_SIZE)).
    { apply (IH (Learner (lworld s) (batch s ++ [exp]) (S (step_idx s))
                   (tracker s)) tr Hne). }
    destruct (unpack_batch (batch s ++ [exp]) (lworld s))
      as [[[[states_v actions_t] vals_ref_v]|] w1]; [|done].
    destruct (update_step states_v actions_t vals_ref_v (S (step_idx s)) w1)
      as [[[]|] w2]; [|done].
    apply (IH (Learner w2 [] (S (step_idx s)) (tracker s)) tr Hne).
Qed.

(** X9. The learner blocks on the queue only when it has taken every
    entry, and none of them was an end marker: as long as entries are left
    the loop goes on or stops. *)
Theorem learner_waits_only_when_drained (queue : list (train_entry V))
    s s' rest :
  learner_loop queue s = (Waiting, s', rest) → rest = [] ∧ ends_of queue = 0.
Proof.
  revert s. induction queue as [|e queue IH]; intros s E.
  { cbn in E. by injection E as _ <-. }
  destruct e as [|r|exp]; cbn [learner_loop] in E.
  - done.
  - destruct (tracker_reward (tracker s) r (step_idx s)).1; [done|].
    by apply IH in E.
  - destruct (decide (length (batch s ++ [exp]) < BATCH_SIZE));
      [by apply IH in E|].
    destruct (unpack_batch (batch s ++ [exp]) (lworld s))
      as [[[[states_v actions_t] vals_ref_v]|] w1]; [|done].
    destruct (update_step states_v actions_t vals_ref_v (S (step_idx s)) w1)
      as [[[]|] w2]; [by apply IH in E|done].
Qed.

(** *** Optimizer steps *)

Lemma optimizer_steps_snoc (tr : list (event V)) ev :
  ev ≠ EvOptimizerStep → optimizer_steps (tr ++ [ev]) = optimizer_steps tr.
Proof.
  intros Hev. unfold optimizer_steps. rewrite omap_app, length_app.
  destruct ev; cbn; (lia || done).
Qed.

Lemma optimizer_steps_snoc_step (tr : list (event V)) :
  optimizer_steps (tr ++ [EvOptimizerStep]) = S (optimizer_steps tr).
Proof.
  unfold optimizer_steps. rewrite omap_app, length_app. cbn. lia.
Qed.

Lemma no_step_log ev :
  ev ≠ EvOptimizerStep → preserves (λ w, optimizer_steps (trace w)) (log ev).
Proof. intros Hev w. by apply optimizer_steps_snoc. Qed.

Lemma no_step_net_forward volatile x :
  preserves (λ w, optimizer_steps (trace w)) (net_forward volatile x).
Proof. intros w. by apply optimizer_steps_snoc. Qed.

Lemma no_step_zero_grad :
  preserves (λ w, optimizer_steps (trace w)) optimizer_zero_grad.
Proof. intros w. by apply optimizer_steps_snoc. Qed.

Lemma no_step_backward x loss retain_graph :
  preserves (λ w, optimizer_steps (trace w)) (backward x loss retain_graph).
Proof.
  intros w. unfold backward. destruct (graph_live w); [|done].
  by apply optimizer_steps_snoc.
Qed.

Lemma no_step_read_grads :
  preserves (λ w, optimizer_steps (trace w)) read_grads.
Proof.
  intros w. unfold read_grads. cbv zeta.
  destruct (omap id (grads w)); by apply optimizer_steps_snoc.
Qed.

Lemma no_step_clip_grad max_norm :
  preserves (λ w, optimizer_steps (trace w)) (clip_grad max_norm).
Proof. intros w. by apply optimizer_steps_snoc. Qed.

Lemma no_step_track name data k :
  preserves (λ w, optimizer_steps (trace w)) (track name data k).
Proof. intros w. by apply optimizer_steps_snoc. Qed.

Ltac no_step :=
  cbv beta zeta;
  lazymatch goal with
  | |- preserves _ (mret _) => apply preserves_ret
  | |- preserves _ (lift_opt _) => apply preserves_lift_opt
  | |- preserves _ (mapM ndarray_get _) => apply preserves_mapM_ndarray_get
  | |- preserves _ (ndarray_get _) => apply preserves_ndarray_get
  | |- preserves _ (ndarray_new _) =>
      apply (preserves_ndarray_new optimizer_steps)
  | |- preserves _ (ndarray_iadd_at _ _ _) =>
      apply (preserves_ndarray_iadd_at optimizer_steps)
  | |- preserves _ (net_forward _ _) => apply no_step_net_forward
  | |- preserves _ optimizer_zero_grad => apply no_step_zero_grad
  | |- preserves _ (backward _ _ _) => apply no_step_backward
  | |- preserves _ read_grads => apply no_step_read_grads
  | |- preserves _ (clip_grad _) => apply no_step_clip_grad
  | |- preserves _ (track _ _ _) => apply no_step_track
  | |- preserves _ (log _) => apply no_step_log; discriminate
  | |- preserves _ (mbind _ _) => apply preserves_bind; [|intros ?]
  | |- preserves _ (match ?x with _ => _ end) => destruct x
  end.

Lemma unpack_batch_no_step batch :
  preserves (λ w, optimizer_steps (trace w)) (unpack_batch batch).
Proof. unfold unpack_batch. repeat no_step. Qed.

Lemma steps_within_zero {A} (m : M A) :
  preserves (λ w, optimizer_steps (trace w)) m → steps_within 0 m.
Proof. intros Hm w. rewrite (Hm w). split; [lia|]. split; [lia|done]. Qed.

Lemma steps_within_bind {A B} (a b n : nat) (m : M A) (f : A → M B) :
  steps_within a m → (∀ x, steps_within b (f x)) → n = a + b →
  steps_within n (m ≫= f).
Proof.
  intros Hm Hf -> w. unfold mbind, M_bind.
  destruct (Hm w) as (Hge & Hle & Heq). destruct (m w) as [[x|] w1]; wsimpl.
  - destruct (Hf x w1) as (Hge' & Hle' & Heq'). split; [lia|]. split; [lia|].
    intros Hs. rewrite (Heq' Hs), Heq; [lia|by eexists].
  - split; [lia|]. split; [lia|]. by intros [? ?].
Qed.

Lemma steps_within_optimizer_step : steps_within 1 optimizer_step.
Proof.
  intros w. unfold optimizer_step. wsimpl.
  rewrite optimizer_steps_snoc_step. split; [lia|]. split; [lia|done].
Qed.

Ltac count_steps :=
  cbv beta zeta;
  lazymatch goal with
  | |- steps_within _ (optimizer_step ≫= _) =>
      eapply steps_within_bind;
        [apply steps_within_optimizer_step|intros ?; count_steps|reflexivity]
  | |- steps_within _ (mbind _ _) =>
      eapply steps_within_bind;
        [apply steps_within_zero; no_step|intros ?; count_steps|reflexivity]
  | |- steps_within _ _ => apply steps_within_zero; no_step
  end.

(** One update step makes one optimizer step when it returns, and at most
    one when it raises; it undoes none. *)
Lemma update_step_one_step states_v actions_t vals_ref_v k :
  steps_within 1 (update_step states_v actions_t vals_ref_v k).
Proof. unfold update_step. count_steps. Qed.

(** X10. In the learner loop the optimizer makes one step per batch
    handed to [unpack_batch]: never more, exactly as many unless an
    exception left the loop, and then at most one step is missing. *)
Theorem learner_one_step_per_batch (queue : list (train_entry V))
    (s : learner) :
  let w := lworld s in
  let w' := lworld (learner_loop queue s).1.2 in
  optimizer_steps (trace w') + length (unpacked (trace w))
  ≤ optimizer_steps (trace w) + length (unpacked (trace w')) ∧
  match (learner_loop queue s).1.1 with
  | Raised =>
      optimizer_steps (trace w) + length (unpacked (trace w'))
      ≤ optimizer_steps (trace w') + length (unpacked (trace w)) + 1
  | _ =>
      optimizer_steps (trace w') + length (unpacked (trace w))
      = optimizer_steps (trace w) + length (unpacked (trace w'))
  end.
Proof.
  cbv zeta. revert s. induction queue as [|e queue IH]; intros s.
  { cbn. split; [lia|done]. }
  destruct e as [|r|exp]; cbn [learner_loop].
  - cbn. split; [lia|done].
  - destruct (tracker_reward (tracker s) r (step_idx s)).1.
    + cbn. split; [lia|done].
    + apply (IH (Learner (lworld s) (batch s) (step_idx s)
                   (tracker_reward (tracker s) r (step_idx s)).2)).
  - destruct (decide (length (batch s ++ [exp]) < BATCH_SIZE)).
    { apply (IH (Learner (lworld s) (batch s ++ [exp]) (S (step_idx s))
                   (tracker s))). }
    pose proof (unpack_batch_no_step (batch s ++ [exp]) (lworld s)) as Hn.
    pose proof (unpack_batch_unpacked (batch s ++ [exp]) (lworld s)) as Hu.
    apply (f_equal length) in Hu. rewrite length_app in Hu.
    cbn [length] in Hu. cbv beta in Hn.
    destruct (unpack_batch (batch s ++ [exp]) (lworld s))
      as [[[[states_v actions_t] vals_ref_v]|] w1]; cbn [fst snd] in *.
    2:{ cbn [lworld]. split; lia. }
    pose proof (update_step_one_step states_v actions_t vals_ref_v
                  (S (step_idx s)) w1) as (Hge & Hle & Heq).
    pose proof (update_step_unpacked states_v actions_t vals_ref_v
                  (S (step_idx s)) w1) as Hu'.
    cbv beta in Hu'.
    destruct (update_step states_v actions_t vals_ref_v (S (step_idx s)) w1)
      as [[[]|] w2]; cbn [fst snd] in *.
    2:{ cbn [lworld]. rewrite Hu'. split; lia. }
    specialize (Heq (ltac:(by eexists))).
    pose proof (IH (Learner w2 [] (S (step_idx s)) (tracker s))) as [IH1 IH2].
    cbn [lworld] in IH1, IH2. rewrite Hu' in IH1, IH2.
    split; [lia|].
    destruct (learner_loop queue (Learner w2 [] (S (step_idx s)) (tracker s)))
      as [[o s'] rest]; cbn [fst snd] in *.
    destruct o; lia.
Qed.

(** *** The update step: when it raises *)

Lemma mapM_None_elem {A B} (f : A → option B) (l : list A) x :
  x ∈ l → f x = None → mapM f l = None.
Proof.
  intros Hx Hf. induction Hx as [x l|x y l Hx IH]; cbn.
  - by rewrite Hf.
  - rewrite (IH Hf). by destruct (f y).
Qed.

(** [t[range(n), cols]] on a matrix of fewer than [n] rows raises. *)
Lemma index_pairs_short (m : list (list V)) (n : nat) (cols : list nat) :
  length m < n → 2 ≤ n → index_pairs m (seq 0 n) cols = None.
Proof.
  intros Hm Hn. unfold index_pairs, bcast_row.
  assert (Hrow : ∀ ps : list (nat * nat), (∃ c, (length m, c) ∈ ps) →
    mapM (λ p : nat * nat, m !! p.1 ≫= (.!! p.2)) ps = None).
  { intros ps [c Hc]. apply (mapM_None_elem _ _ _ Hc). cbn.
    by rewrite (lookup_ge_None_2 m (length m)). }
  destruct (decide (length (seq 0 n) = length cols)) as [Hc|Hc]; cbn.
  - rewrite length_seq in Hc.
    destruct (lookup_lt_is_Some_2 cols (length m)) as [c Hlc]; [lia|].
    apply Hrow. exists c. apply (list_elem_of_lookup_2 _ (length m)).
    rewrite lookup_zip_with, lookup_seq_lt by done. cbn. by rewrite Hlc.
  - destruct n as [|[|n]]; [lia|lia|]. cbn [seq].
    destruct cols as [|y [|y' cols]]; [done| |done]. cbn [mbind option_bind].
    apply Hrow. exists y. apply (list_elem_of_fmap_2 (λ t, (t, y))).
    change (0 :: 1 :: seq 2 n) with (seq 0 (S (S n))).
    apply elem_of_seq. lia.
Qed.

Lemma eval_log_prob_actions_short (lg : list (list V)) vl actions_t ref :
  length lg < BATCH_SIZE →
  eval (T2 lg) vl (log_prob_actions_v actions_t ref) = None.
Proof.
  intros Hlg. unfold log_prob_actions_v. rewrite eval_Mul.
  assert (E : eval (T2 lg) vl (Index log_prob_v (seq 0 BATCH_SIZE) actions_t)
              = None).
  { cbn [eval log_prob_v rowwise mbind option_bind].
    rewrite index_pairs_short; [done| |unfold BATCH_SIZE; lia].
    by rewrite length_map. }
  rewrite E. by destruct (eval (T2 lg) vl (adv_v ref)).
Qed.

Ltac raised :=
  eexists; split; [reflexivity|]; wsimpl;
  rewrite ?optimizer_steps_snoc by discriminate; done.

Ltac next_compute :=
  rewrite lift_opt_bind;
  lazymatch goal with
  | |- context [match ?o with Some _ => _ | None => _ end] =>
      destruct o as [?|]; [|raised]
  end.

(** X11. The update step is tied to full batches: when the policy head
    returns fewer than [BATCH_SIZE] rows, indexing the log-probabilities by
    [range(BATCH_SIZE)] raises; the exception leaves the parameters and the
    state of the optimizer as they were, and no optimizer step is made. *)
Theorem update_step_short_batch_raises states_v actions_t vals_ref_v k w :
  length (net (params w) states_v).1 < BATCH_SIZE →
  ∃ w',
    update_step states_v actions_t vals_ref_v k w = (None, w') ∧
    params w' = params w ∧ opt_state w' = opt_state w ∧
    optimizer_steps (trace w') = optimizer_steps (trace w).
Proof.
  intros Hlen. unfold update_step.
  do 2 (erewrite bind_some by reflexivity). cbv zeta. wsimpl.
  do 3 next_compute.
  rewrite lift_opt_bind, eval_log_prob_actions_short by done.
  raised.
Qed.

(** *** The update step: what it reports *)

(** X13. On a batch it does not raise on, the update step reports, under
    its step index, the entropy loss, the policy loss and the value loss,
    and as the total loss their sum [(entropy + value) + policy], although
    the policy loss went through a backward pass of its own. *)
Theorem update_step_reports w states_v actions_t vals_ref_v k :
  update_ready w states_v actions_t vals_ref_v →
  ∃ entropy policy value,
    eval (T2 (net (params w) states_v).1) (T2 (net (params w) states_v).2)
      (loss_policy_v actions_t vals_ref_v) = Some (T0 policy) ∧
    eval (T2 (net (params w) states_v).1) (T2 (net (params w) states_v).2)
      entropy_loss_v = Some (T0 entropy) ∧
    eval (T2 (net (params w) states_v).1) (T2 (net (params w) states_v).2)
      (loss_value_v vals_ref_v) = Some (T0 value) ∧
    let tr := trace (update_step states_v actions_t vals_ref_v k w).2 in
    EvTrack "loss_entropy" (T0 entropy) k ∈ tr ∧
    EvTrack "loss_policy" (T0 policy) k ∈ tr ∧
    EvTrack "loss_value" (T0 value) k ∈ tr ∧
    EvTrack "loss_total" (T0 (fadd (fadd entropy value) policy)) k ∈ tr.
Proof.
  intros Hr.
  destruct (update_step_spec w states_v actions_t vals_ref_v k Hr)
    as (vs & mse & Hvl & Hmse & E).
  cbv zeta in E. rewrite E. cbn [snd trace].
  destruct Hr as [Hlen Hact Hrows _ Href _ _].
  exists (entropy_loss_value (net (params w) states_v).1),
    (policy_loss_value vals_ref_v vs
       (log_probs_of (net (params w) states_v).1 actions_t)), mse.
  split.
  { rewrite Hvl. by apply eval_loss_policy. }
  split; [by apply eval_entropy_loss|].
  split; [by apply eval_loss_value|].
  cbv zeta. rewrite !elem_of_app.
  repeat split; right; right;
    repeat first [apply list_elem_of_here | apply list_elem_of_further].
Qed.

(** *** The actor *)

Lemma iteration_puts_exps (its : list (Experience V * list V)) :
  exps_of (concat (map iteration_puts its)) = map fst its.
Proof.
  induction its as [|[exp rs] its IH]; [done|].
  cbn [map concat]. unfold exps_of in *. rewrite omap_app, IH.
  unfold iteration_puts. by destruct rs.
Qed.

Lemma iteration_puts_ends (its : list (Experience V * list V)) :
  ends_of (concat (map iteration_puts its)) = 0.
Proof.
  induction its as [|[exp rs] its IH]; [done|].
  cbn [map concat]. unfold ends_of in *. rewrite omap_app, length_app, IH.
  unfold iteration_puts. by destruct rs.
Qed.

Lemma iteration_puts_reports (its : list (Experience V * list V)) :
  reports_of (concat (map iteration_puts its)) ≤ length its.
Proof.
  induction its as [|[exp rs] its IH]; [done|].
  cbn [map concat]. unfold reports_of in *. rewrite omap_app, length_app.
  match goal with
  | |- length ?a + _ ≤ _ => assert (Ha : length a ≤ 1)
  end.
  { unfold iteration_puts. destruct rs; cbn; lia. }
  cbn [length]. lia.
Qed.

(** What [data_func] has done when it returns. *)
Lemma data_func_some_inv fuel exp_source queue queue' :
  data_func fuel exp_source queue = Some queue' →
  ∃ n its, n < fuel ∧ source_run n exp_source = Some its ∧
    queue' = queue ++ concat (map iteration_puts its) ++ [TEnd].
Proof.
  revert exp_source queue.
  induction fuel as [|fuel IH]; intros exp_source queue E; [done|].
  cbn in E. destruct (source_next exp_source) as [[exp src1]|] eqn:Enext.
  - apply IH in E as (n & its & Hn & Hrun & ->).
    exists (S n), ((exp, (pop_total_rewards src1).1) :: its).
    split; [lia|]. split.
    + cbn. rewrite Enext. cbn. by rewrite Hrun.
    + cbn [map concat]. unfold iteration_puts at 2. cbn [fst snd].
      destruct (pop_total_rewards src1).1; cbn; by rewrite <- !app_assoc.
  - injection E as <-. exists 0, []. split; [lia|]. split; [|done].
    cbn. by rewrite Enext.
Qed.

(** X14. [data_func] returns exactly when the experience source comes to
    an end within the iterations it is given: then, and only then, the
    queue holds what the iterations put, followed by the end marker. *)
Theorem data_func_returns_iff fuel exp_source queue queue' :
  data_func fuel exp_source queue = Some queue' ↔
  ∃ n its, n < fuel ∧ source_run n exp_source = Some its ∧
    queue' = queue ++ concat (map iteration_puts its) ++ [TEnd].
Proof.
  split; [apply data_func_some_inv|].
  intros (n & its & Hn & Hrun & ->).
  revert fuel exp_source its queue Hn Hrun.
  induction n as [|n IH]; intros [|fuel] exp_source its queue Hfuel Hrun;
    try lia; cbn in Hrun |- *;
    destruct (source_next exp_source) as [[exp src1]|]; try done.
  - by injection Hrun as <-.
  - destruct (source_run n (pop_total_rewards src1).2) as [its'|] eqn:E;
      [|done].
    injection Hrun as <-.
    rewrite (IH fuel _ its') by (done || lia). f_equal.
    cbn [map concat]. unfold iteration_puts at 2. cbn [fst snd].
    destruct (pop_total_rewards src1).1; cbn; by rewrite <- !app_assoc.
Qed.

(** X15. An actor that returns has put every tuple of its experience
    source on the queue, once and in the order of the source, one end
    marker, as the last entry, and at most one reward report per tuple. *)
Theorem data_func_forwards_tuples fuel exp_source queue queue' :
  data_func fuel exp_source queue = Some queue' →
  ∃ its,
    source_run (length its) exp_source = Some its ∧
    exps_of queue' = exps_of queue ++ map fst its ∧
    ends_of queue' = ends_of queue + 1 ∧
    last queue' = Some TEnd ∧
    reports_of queue' ≤ reports_of queue + length its.
Proof.
  intros E. apply data_func_some_inv in E as (n & its & Hn & Hrun & ->).
  exists its. split.
  { replace (length its) with n; [done|].
    clear Hn. revert exp_source its Hrun.
    induction n as [|n IH]; intros exp_source its Hrun; cbn in Hrun;
      destruct (source_next exp_source) as [[exp src1]|]; try done.
    - by injection Hrun as <-.
    - destruct (source_run n (pop_total_rewards src1).2) as [its'|] eqn:E;
        [|done].
      injection Hrun as <-. cbn. f_equal. exact (IH _ _ E). }
  pose proof (iteration_puts_exps its) as He.
  pose proof (iteration_puts_ends its) as Hd.
  pose proof (iteration_puts_reports its) as Hp.
  unfold exps_of, ends_of, reports_of in *.
  rewrite !omap_app, !length_app, He, Hd. cbn.
  split; [by rewrite app_nil_r|]. split; [lia|].
  split; [|lia]. by rewrite !app_assoc, last_snoc.
Qed.

(** *** The actor and the learner *)

(** X16. The output of an actor that has returned never leaves the
    learner blocked on the queue: the loop stops on the end marker, stops
    on a reward report, or an exception leaves it.  When it stops on the
    actor's end marker, nothing is left in the queue. *)
Theorem actor_output_stops_learner fuel exp_source queue (s : learner) :
  data_func fuel exp_source [] = Some queue →
  match (learner_loop queue s).1.1 with
  | Waiting => False
  | StoppedByEnd => (learner_loop queue s).2 = []
  | _ => True
  end.
Proof.
  intros E. apply data_func_some_inv in E as (n & its & _ & _ & ->).
  cbn [app]. pose proof (iteration_puts_ends its) as Hd.
  generalize dependent (concat (map iteration_puts its)).
  clear. intros pre Hd. revert s.
  induction pre as [|e pre IH]; intros s; [done|].
  destruct e as [|r|exp]; cbn [learner_loop app].
  - done.
  - destruct (tracker_reward (tracker s) r (step_idx s)).1; [done|].
    by apply IH.
  - destruct (decide (length (batch s ++ [exp]) < BATCH_SIZE));
      [by apply IH|].
    destruct (unpack_batch (batch s ++ [exp]) (lworld s))
      as [[[[states_v actions_t] vals_ref_v]|] w1]; [|done].
    destruct (update_step states_v actions_t vals_ref_v (S (step_idx s)) w1)
      as [[[]|] w2]; [by apply IH|done].
Qed.

(** *** Forward passes and idle entries *)

Lemma net_evaluations_snoc (tr : list (event V)) ev :
  (∀ x, ev ≠ EvNet x) → net_evaluations (tr ++ [ev]) = net_evaluations tr.
Proof.
  intros Hev. unfold net_evaluations. rewrite omap_app.
  destruct ev as [b|x| | | | | |]; cbn; rewrite ?app_nil_r; try done.
  by destruct (Hev x).
Qed.

Lemma no_net_backward x loss retain_graph :
  preserves (λ w, net_evaluations (trace w)) (backward x loss retain_graph).
Proof.
  intros w. unfold backward. destruct (graph_live w); [|done].
  by apply net_evaluations_snoc.
Qed.

Lemma no_net_read_grads :
  preserves (λ w, net_evaluations (trace w)) read_grads.
Proof.
  intros w. unfold read_grads. cbv zeta.
  destruct (omap id (grads w)); by apply net_evaluations_snoc.
Qed.

Lemma no_net_clip_grad max_norm :
  preserves (λ w, net_evaluations (trace w)) (clip_grad max_norm).
Proof. intros w. by apply net_evaluations_snoc. Qed.

Lemma no_net_optimizer_step :
  preserves (λ w, net_evaluations (trace w)) optimizer_step.
Proof. intros w. by apply net_evaluations_snoc. Qed.

Lemma no_net_track name data k :
  preserves (λ w, net_evaluations (trace w)) (track name data k).
Proof. intros w. by apply net_evaluations_snoc. Qed.

Ltac no_net :=
  cbv beta zeta;
  lazymatch goal with
  | |- preserves _ (lift_opt _) => apply preserves_lift_opt
  | |- preserves _ (backward _ _ _) => apply no_net_backward
  | |- preserves _ read_grads => apply no_net_read_grads
  | |- preserves _ (clip_grad _) => apply no_net_clip_grad
  | |- preserves _ optimizer_step => apply no_net_optimizer_step
  | |- preserves _ (track _ _ _) => apply no_net_track
  | |- preserves _ (mbind _ _) => apply preserves_bind; [|intros ?]
  end.

(** X17. One update step makes one forward pass, on the states of the
    batch, whether it returns or raises: the two backward passes go through
    the graph of the same evaluation of the network. *)
Theorem update_step_one_forward_pass states_v actions_t vals_ref_v k w :
  net_evaluations (trace (update_step states_v actions_t vals_ref_v k w).2)
  = net_evaluations (trace w) ++ [states_v].
Proof.
  unfold update_step.
  do 2 (erewrite bind_some by reflexivity). cbv zeta.
  match goal with
  | |- net_evaluations (trace (?m ?w2).2) = _ =>
      assert (Hm : preserves (λ w, net_evaluations (trace w)) m);
      [repeat no_net|rewrite Hm]
  end.
  wsimpl. unfold net_evaluations. rewrite !omap_app. cbn.
  by rewrite app_nil_r.
Qed.

(** X18. Nothing is trained before a batch is full: while the tuples in
    the batch and in the queue together are fewer than [BATCH_SIZE], the
    loop leaves the world as it is (no network evaluation, no array, no
    report to the writer) and only collects the tuples. *)
Theorem learner_idle_below_batch_size (queue : list (train_entry V))
    (s : learner) :
  length (batch s) + length (exps_of queue) < BATCH_SIZE →
  ∃ popped,
    queue = popped ++ (learner_loop queue s).2 ∧
    lworld (learner_loop queue s).1.2 = lworld s ∧
    batch (learner_loop queue s).1.2 = batch s ++ exps_of popped ∧
    (learner_loop queue s).1.1 ≠ Raised.
Proof.
  revert s. induction queue as [|e queue IH]; intros s Hlen.
  { exists []. cbn. by rewrite app_nil_r. }
  destruct e as [|r|exp]; cbn [learner_loop].
  - exists [TEnd]. cbn. by rewrite app_nil_r.
  - destruct (tracker_reward (tracker s) r (step_idx s)).1.
    + exists [TotalReward r]. cbn. by rewrite app_nil_r.
    + destruct (IH (Learner (lworld s) (batch s) (step_idx s)
                      (tracker_reward (tracker s) r (step_idx s)).2) Hlen)
        as (popped & Hq & Hw & Hb & Ho).
      exists (TotalReward r :: popped). by rewrite Hq at 1.
  - unfold exps_of in Hlen. cbn [omap list_omap length] in Hlen.
    fold (exps_of queue) in Hlen.
    destruct (decide (length (batch s ++ [exp]) < BATCH_SIZE)) as [_|Hge].
    2:{ rewrite length_app in Hge. cbn in Hge. lia. }
    destruct (IH (Learner (lworld s) (batch s ++ [exp]) (S (step_idx s))
                    (tracker s))) as (popped & Hq & Hw & Hb & Ho).
    { cbn [batch]. rewrite length_app. cbn. lia. }
    exists (TExp exp :: popped). split; [by rewrite Hq at 1|].
    split; [done|]. split; [|done].
    rewrite Hb. cbn [batch]. unfold exps_of. cbn [omap list_omap].
    by rewrite <- app_assoc.
Qed.

End More.

(** ** More theorems on the rational run *)

(** The call of [unpack_batch] on the scenario of the design document. *)
Lemma unpack_batch_scenario :
  ∃ w',
    unpack_batch scenario_batch world_q
    = (Some (map (λ exp, heap world_q !!! state exp) scenario_batch,
             map action scenario_batch,
             map (float32_return (λ o, hd 0 o + 0)%Q (heap world_q))
               scenario_batch), w').
Proof.
  eexists.
  apply (unpack_batch_spec (λ o, hd 0 o + 0)%Q scenario_batch world_q).
  - exact scenario_allocated.
  - reflexivity.
Qed.

Lemma unpack_batch_aligned_witness :
  ∃ states_v actions_t vals w',
    unpack_batch scenario_batch world_q
    = (Some (states_v, actions_t, vals), w') ∧
    states_v = map (λ exp, heap world_q !!! state exp) scenario_batch ∧
    actions_t = map action scenario_batch ∧
    length vals = length scenario_batch.
Proof.
  destruct unpack_batch_scenario as [w' E].
  eexists _, _, _, w'. split; [exact E|].
  exact (unpack_batch_aligned scenario_batch world_q _ _ _ w' E).
Defined.

(** The second tuple of the scenario is terminal: its reference value is
    its reward, -1. *)
Lemma unpack_batch_terminal_reward_witness :
  ∃ states_v actions_t vals w',
    unpack_batch scenario_batch world_q
    = (Some (states_v, actions_t, vals), w') ∧
    vals !! 1%nat = Some (-1)%Q.
Proof.
  destruct unpack_batch_scenario as [w' E].
  eexists _, _, _, w'. split; [exact E|].
  apply (unpack_batch_terminal_reward scenario_batch world_q _ _ _ w' 1
           (Build_Experience Q 1%positive 1 (-1)%Q None) E);
    reflexivity.
Defined.

(** The third tuple of the scenario has a last state; a value head that
    returns no row makes the call raise. *)
Lemma unpack_batch_value_rows_mismatch_witness :
  (@unpack_batch Q Q_Scalar Q_Torch_no_value scenario_batch
     world_no_value).1 = None.
Proof.
  apply (@unpack_batch_value_rows_mismatch Q Q_Scalar Q_Torch_no_value
           scenario_batch world_no_value).
  - exact scenario_allocated.
  - vm_compute. discriminate.
  - vm_compute. discriminate.
  - vm_compute. discriminate.
Defined.

(** The report of a total reward of 3 between two tuples: the learner ends
    as on the two tuples alone. *)
Lemma learner_ignores_reports_witness :
  (learner_loop (without_reports queue_report)
     (Learner world_q [] 0 5%nat)).1.1
  = (learner_loop queue_report learner_q).1.1 ∧
  lworld (learner_loop (without_reports queue_report)
            (Learner world_q [] 0 5%nat)).1.2
  = lworld (learner_loop queue_report learner_q).1.2 ∧
  batch (learner_loop (without_reports queue_report)
           (Learner world_q [] 0 5%nat)).1.2
  = batch (learner_loop queue_report learner_q).1.2 ∧
  step_idx (learner_loop (without_reports queue_report)
              (Learner world_q [] 0 5%nat)).1.2
  = step_idx (learner_loop queue_report learner_q).1.2 ∧
  (learner_loop (without_reports queue_report)
     (Learner world_q [] 0 5%nat)).2
  = without_reports (learner_loop queue_report learner_q).2.
Proof.
  apply (learner_ignores_reports queue_report learner_q 5%nat).
  vm_compute. discriminate.
Defined.

(** After one tuple the learner waits: the queue is empty. *)
Lemma learner_waits_only_when_drained_witness :
  @nil (train_entry Q) = [] ∧ ends_of [TExp (terminal_exp 1)] = 0.
Proof.
  eapply (learner_waits_only_when_drained [TExp (terminal_exp 1)] learner_q).
  reflexivity.
Defined.

(** Two tuples and a report: the learner collects the two tuples and
    leaves the world as it is. *)
Lemma learner_idle_below_batch_size_witness :
  ∃ popped,
    queue_report = popped ++ (learner_loop queue_report learner_q).2 ∧
    lworld (learner_loop queue_report learner_q).1.2 = lworld learner_q ∧
    batch (learner_loop queue_report learner_q).1.2
    = batch learner_q ++ exps_of popped ∧
    (learner_loop queue_report learner_q).1.1 ≠ Raised.
Proof.
  apply (learner_idle_below_batch_size queue_report learner_q).
  vm_compute. lia.
Defined.

(** A batch of three rows: the update step raises. *)
Lemma update_step_short_batch_raises_witness :
  ∃ w',
    update_step (take 3 full_states) (take 3 full_actions)
      (take 3 full_returns) 3 world_q = (None, w') ∧
    params w' = params world_q ∧ opt_state w' = opt_state world_q ∧
    optimizer_steps (trace w') = optimizer_steps (trace world_q).
Proof.
  apply (update_step_short_batch_raises (take 3 full_states)
           (take 3 full_actions) (take 3 full_returns) 3 world_q).
  vm_compute. lia.
Defined.

Lemma update_step_reports_witness :
  ∃ entropy policy value : Q,
    eval (T2 (net (params world_q) full_states).1)
      (T2 (net (params world_q) full_states).2)
      (loss_policy_v full_actions full_returns) = Some (T0 policy) ∧
    eval (T2 (net (params world_q) full_states).1)
      (T2 (net (params world_q) full_states).2) entropy_loss_v
    = Some (T0 entropy) ∧
    eval (T2 (net (params world_q) full_states).1)
      (T2 (net (params world_q) full_states).2) (loss_value_v full_returns)
    = Some (T0 value) ∧
    let tr :=
      trace (update_step full_states full_actions full_returns 128
               world_q).2 in
    EvTrack "loss_entropy" (T0 entropy) 128 ∈ tr ∧
    EvTrack "loss_policy" (T0 policy) 128 ∈ tr ∧
    EvTrack "loss_value" (T0 value) 128 ∈ tr ∧
    EvTrack "loss_total" (T0 (fadd (fadd entropy value) policy)) 128 ∈ tr.
Proof.
  exact (update_step_reports world_q full_states full_actions full_returns
           128 full_batch_ready).
Defined.

(** The actor on the script of two tuples. *)
Lemma data_func_returns_iff_witness :
  ∃ n its,
    n < 5 ∧ source_run n source_q = Some its ∧
    [TExp (terminal_exp 1); TotalReward (fmean [3; 5]%Q);
     TExp (terminal_exp 2); TEnd]
    = [] ++ concat (map iteration_puts its) ++ [TEnd].
Proof.
  apply (data_func_returns_iff 5 source_q []
           [TExp (terminal_exp 1); TotalReward (fmean [3; 5]%Q);
            TExp (terminal_exp 2); TEnd]).
  reflexivity.
Defined.

Lemma data_func_forwards_tuples_witness :
  ∃ its,
    source_run (length its) source_q = Some its ∧
    exps_of [TExp (terminal_exp 1); TotalReward (fmean [3; 5]%Q);
             TExp (terminal_exp 2); TEnd]
    = exps_of [] ++ map fst its ∧
    ends_of [TExp (terminal_exp 1); TotalReward (fmean [3; 5]%Q);
             TExp (terminal_exp 2); TEnd]
    = ends_of (@nil (train_entry Q)) + 1 ∧
    last [TExp (terminal_exp 1); TotalReward (fmean [3; 5]%Q);
          TExp (terminal_exp 2); TEnd]
    = Some TEnd ∧
    reports_of [TExp (terminal_exp 1); TotalReward (fmean [3; 5]%Q);
                TExp (terminal_exp 2); TEnd]
    ≤ reports_of (@nil (train_entry Q)) + length its.
Proof.
  apply (data_func_forwards_tuples 5 source_q []).
  reflexivity.
Defined.

(** The learner on the output of that actor stops on the end marker and
    leaves nothing in the queue. *)
Lemma actor_output_stops_learner_witness :
  match
    (learner_loop
       [TExp (terminal_exp 1); TotalReward (fmean [3; 5]%Q);
        TExp (terminal_exp 2); TEnd] learner_q).1.1
  with
  | Waiting => False
  | StoppedByEnd =>
      (learner_loop
         [TExp (terminal_exp 1); TotalReward (fmean [3; 5]%Q);
          TExp (terminal_exp 2); TEnd] learner_q).2 = []
  | _ => True
  end.
Proof.
  apply (actor_output_stops_learner 5 source_q
           [TExp (terminal_exp 1); TotalReward (fmean [3; 5]%Q);
            TExp (terminal_exp 2); TEnd] learner_q).
  reflexivity.
Defined.
